(** * pyranklib: ranking and unranking of combinatorial objects

    A shallow embedding of [src/pyranklib/pyranklib.py] and the properties
    its specification states about it.

    Conventions of the embedding:
    - a Python [int] is a [Z]; a [len(...)] and a list position are [nat]s,
      injected into [Z] where the code does arithmetic on them;
    - a Python [set] or [frozenset] is a [gset], a [tuple] or [list] a [list];
    - [sorted(...)] is [merge_sort] for the order of the items;
    - a raised exception is the [Raise] branch of the monad [result];
      a returned [None] is the [None] of an [option];
    - [functools.lru_cache] only memoises pure functions and is left out. *)

From Stdlib Require Import ZArith Lia.
From stdpp Require Import base numbers list sorting gmap sets strings.

Local Open Scope Z_scope.

(** ** The fragment of Python the library relies on *)

Inductive exn : Set :=
| ValueError
| NotImplementedError
| TypeError
| IndexError
| StopIteration.

Inductive result (T : Type) : Type :=
| Ret (v : T)
| Raise (e : exn).

Arguments Ret {T} v.
Arguments Raise {T} e.

#[global] Instance result_ret : MRet result := @Ret.

#[global] Instance result_bind : MBind result := fun _ _ f m =>
  match m with
  | Ret v => f v
  | Raise e => Raise e
  end.

(** A call fails loudly when it raises. *)
Definition fails_loudly {T : Type} (r : result T) : Prop :=
  ∃ e, r = Raise e.

(** What one pass through the body of a [for] loop asks for next. *)
Inductive flow (S : Type) : Type :=
| Next (s : S)
| Break (s : S).

Arguments Next {S} s.
Arguments Break {S} s.

(** [for x in xs: body], the loop variables being threaded as [s]. *)
Fixpoint for_in {X S : Type} (xs : list X) (body : X → S → result S) (s : S)
  : result S :=
  match xs with
  | [] => Ret s
  | x :: xs' => s' ← body x s; for_in xs' body s'
  end.

(** The same for a body that may [break]. *)
Fixpoint for_in_break {X S : Type} (xs : list X)
    (body : X → S → result (flow S)) (s : S) : result S :=
  match xs with
  | [] => Ret s
  | x :: xs' =>
      f ← body x s;
      match f with
      | Next s' => for_in_break xs' body s'
      | Break s' => Ret s'
      end
  end.

(** [range(n)] and [range(a, b)] for integer bounds; [range(len(l))] is
    [seq 0 (length l)]. *)
Definition range (n : Z) : list Z := seqZ 0 n.
Definition range_from (a b : Z) : list Z := seqZ a (b - a).

(** [enumerate(l)] *)
Definition enumerate {X : Type} (l : list X) : list (nat * X) :=
  zip (seq 0 (length l)) l.

(** [math.comb] and [math.perm] of the standard library: the number of
    [k]-subsets and of [k]-arrangements of [n] items, [0] when [k > n], and
    [ValueError] on a negative argument. *)
Fixpoint comb (n k : nat) : Z :=
  match k, n with
  | O, _ => 1
  | S _, O => 0
  | S k', S n' => comb n' k' + comb n' k
  end.

Fixpoint perm (n k : nat) : Z :=
  match k, n with
  | O, _ => 1
  | S _, O => 0
  | S k', S n' => Z.of_nat n * perm n' k'
  end.

Definition math_comb (n k : Z) : result Z :=
  if decide (0 ≤ n ∧ 0 ≤ k) then Ret (comb (Z.to_nat n) (Z.to_nat k))
  else Raise ValueError.

Definition math_perm (n k : Z) : result Z :=
  if decide (0 ≤ n ∧ 0 ≤ k) then Ret (perm (Z.to_nat n) (Z.to_nat k))
  else Raise ValueError.

(** [l[i]] with Python's negative positions. *)
Definition getitem {X : Type} (l : list X) (i : Z) : result X :=
  let j := if decide (i < 0) then Z.of_nat (length l) + i else i in
  if decide (j < 0) then Raise IndexError
  else match l !! Z.to_nat j with
       | Some x => Ret x
       | None => Raise IndexError
       end.

(** [l.index(x)] *)
Definition list_index `{EqDecision X} (l : list X) (x : X) : result nat :=
  match list_find (x =.) l with
  | Some (i, _) => Ret i
  | None => Raise ValueError
  end.

(** Closes a goal between closed terms by evaluating both sides. *)
Ltac by_computation :=
  vm_compute; repeat split; first [reflexivity | discriminate | exact I].

(** ** Combinations and permutations over a universal set *)

Section combinatorics.
Context `{Countable A} (le : relation A).
Context `{!RelDecision le, !PartialOrder le, !Total le}.

(** [sorted(list(s))] *)
Definition sorted (l : list A) : list A := merge_sort le l.

(** The two payloads an object of the library holds. *)
Inductive container : Type :=
| PySet (s : gset A)
| PyTuple (t : list A).

Definition len (c : container) : nat :=
  match c with
  | PySet s => size s
  | PyTuple t => length t
  end.

Definition iter (c : container) : list A :=
  match c with
  | PySet s => elements s
  | PyTuple t => t
  end.

Definition frozenset (c : container) : gset A := list_to_set (iter c).

Inductive combinatoric_class : Set :=
| Combination
| Permutation.

#[global] Instance combinatoric_class_eq_dec : EqDecision combinatoric_class.
Proof. solve_decision. Defined.

(** An instance of a subclass of [Combinatoric]. *)
Record Combinatoric : Type := mkCombinatoric {
  class_of : combinatoric_class;
  _universal_set : gset A;
  _combinatoric : container
}.

(** [Combinatoric.__init__], reached through [super().__init__] from both
    subclasses. *)
Definition Combinatoric_init (cls : combinatoric_class)
    (universal_set : gset A) (combinatoric : container)
  : result Combinatoric :=
  if existsb (fun c => bool_decide (c ∉ universal_set)) (iter combinatoric)
  then Raise ValueError
  else Ret (mkCombinatoric cls universal_set combinatoric).

(** One pass of the inner loop of [unrank_combination]; the loop variables
    are [index_rank], [combination], [sliced_universal_set] and [rank]. *)
Definition unrank_combination_body (k : Z) (i : Z) (index : nat)
    (st : Z * gset A * list A * Z) : result (flow (Z * gset A * list A * Z)) :=
  let '(index_rank, combination, sliced_universal_set, rank) := st in
  combs ← math_comb (Z.of_nat (length (drop (index + 1) sliced_universal_set)))
                    (k - (i + 1));
  let index_rank := index_rank + combs in
  if decide (index_rank > rank) then
    item ← getitem sliced_universal_set (Z.of_nat index);
    Ret (Break (index_rank,
                combination ∪ {[item]},
                drop (index + 1) sliced_universal_set,
                rank - (index_rank - combs)))
  else Ret (Next (index_rank, combination, sliced_universal_set, rank)).

Definition unrank_combination (universal_set : gset A) (k : Z) (rank : Z)
  : result (option Combinatoric) :=
  total ← math_comb (Z.of_nat (size universal_set)) k;
  if decide (rank >= total) then Ret None
  else
    let sliced_universal_set := sorted (elements universal_set) in
    '(combination, _, _) ←
      for_in (range k)
        (fun i '(combination, sliced_universal_set, rank) =>
           '(_, combination, sliced_universal_set, rank) ←
             for_in_break (seq 0 (length sliced_universal_set))
               (unrank_combination_body k i)
               (0, combination, sliced_universal_set, rank);
           Ret (combination, sliced_universal_set, rank))
        (∅, sliced_universal_set, rank);
    combination ← Combinatoric_init Combination universal_set (PySet combination);
    Ret (Some combination).

(** [rank_combination]; the caller hands over a [frozenset] or a [tuple] as
    universal set, which [sorted(list(...))] treats alike. *)
Definition rank_combination (universal_set : list A) (combination : gset A)
  : result Z :=
  let universal_set := sorted universal_set in
  '(_, rank) ←
    for_in (enumerate (sorted (elements combination)))
      (fun '(i, item) '(universal_set, rank) =>
         index ← list_index universal_set item;
         rank ←
           for_in (seq 0 index)
             (fun rank_index rank =>
                c ← math_comb
                      (Z.of_nat (length (drop (rank_index + 1) universal_set)))
                      (Z.of_nat (size combination) - (Z.of_nat i + 1));
                Ret (rank + c))
             rank;
         Ret (drop (index + 1) universal_set, rank))
      (universal_set, 0);
  Ret rank.

(** [Combination.rank] and [Permutation.rank]: the two methods differ only
    in the conversion applied to the universal set. *)
Definition rank (self : Combinatoric) : result Z :=
  match class_of self with
  | Combination =>
      rank_combination (elements (_universal_set self))
                       (frozenset (_combinatoric self))
  | Permutation =>
      rank_combination (elements (_universal_set self))
                       (frozenset (_combinatoric self))
  end.

(** [Combinatoric.successor], inherited unchanged by both subclasses. *)
Definition successor (self : Combinatoric) : result (option Combinatoric) :=
  rank ← rank self;
  unrank_combination (_universal_set self)
                     (Z.of_nat (len (_combinatoric self))) (rank + 1).

(** [CombinationIterator]: its only attribute is the cursor. *)
Record CombinationIterator : Type := mkCombinationIterator {
  _combination : option Combinatoric
}.

Definition CombinationIterator_init (universal_set : gset A) (k : Z)
    (initial_index : Z) : result CombinationIterator :=
  combination ← unrank_combination universal_set k initial_index;
  Ret (mkCombinationIterator combination).

(** [CombinationIterator.__next__]: the value yielded and the iterator after
    the call.  An instance of [Combinatoric] defines neither [__bool__] nor
    [__len__], so [if current:] only tells an object from [None]. *)
Definition next (self : CombinationIterator)
  : result (Combinatoric * CombinationIterator) :=
  match _combination self with
  | Some current =>
      successor ← successor current;
      Ret (current, mkCombinationIterator successor)
  | None => Raise StopIteration
  end.

(** [list(iterator)]: call [__next__] until it raises [StopIteration].
    [None] when [fuel] calls did not reach that point. *)
Fixpoint list_of_iterator (fuel : nat) (it : CombinationIterator)
  : result (option (list Combinatoric)) :=
  match fuel with
  | O => Ret None
  | S fuel' =>
      match next it with
      | Ret (current, it') =>
          rest ← list_of_iterator fuel' it';
          Ret (option_map (cons current) rest)
      | Raise StopIteration => Ret (Some [])
      | Raise e => Raise e
      end
  end.

(** [rank_permutation.__wrapped__], the function under its decorator, on a
    list as universal set.  [rank_permutation] itself cannot be run that
    way: [lru_cache] refuses a list, which cannot be hashed, and a
    [frozenset] or a [tuple], which it accepts, lacks [index] or [remove].
    The items are removed from the caller's list on the way; only the
    returned rank is kept here. *)
Definition rank_permutation_wrapped (universal_set : list A)
    (permutation : list A) : result Z :=
  '(_, rank) ←
    for_in (enumerate permutation)
      (fun '(i, item) '(universal_set, rank) =>
         index ← list_index universal_set item;
         p ← math_perm (Z.of_nat (length universal_set) - 1)
                       (Z.of_nat (length permutation) - 1 - Z.of_nat i);
         Ret (delete index universal_set, rank + Z.of_nat index * p))
      (universal_set, 0);
  Ret rank.

(** One pass of the inner loop of [unrank_permutation]; the loop variables
    are [offset], [index], [permutation] and [sliced_universal_set]. *)
Definition unrank_permutation_body (k : Z) (i : Z) (j : nat)
    (st : Z * Z * list A * list A) : result (flow (Z * Z * list A * list A)) :=
  let '(offset, index, permutation, sliced_universal_set) := st in
  p ← math_perm (Z.of_nat (length sliced_universal_set) - 1) (k - (i + 1));
  if decide (offset + p > index) then
    item ← getitem sliced_universal_set (Z.of_nat j);
    Ret (Break (offset, index - offset, permutation ++ [item],
                delete j sliced_universal_set))
  else
    p ← math_perm (Z.of_nat (length sliced_universal_set) - 1) (k - (i + 1));
    Ret (Next (offset + p, index, permutation, sliced_universal_set)).

Definition unrank_permutation (universal_set : gset A) (k : Z) (index : Z)
  : result (option Combinatoric) :=
  let sliced_universal_set := sorted (elements universal_set) in
  total ← math_perm (Z.of_nat (size universal_set)) k;
  if decide (index >= total) then Ret None
  else
    '(index, permutation, _) ←
      for_in (range k)
        (fun i '(index, permutation, sliced_universal_set) =>
           '(_, index, permutation, sliced_universal_set) ←
             for_in_break (seq 0 (length sliced_universal_set))
               (unrank_permutation_body k i)
               (0, index, permutation, sliced_universal_set);
           Ret (index, permutation, sliced_universal_set))
        (index, [], sliced_universal_set);
    permutation ← Combinatoric_init Permutation universal_set (PyTuple permutation);
    Ret (Some permutation).

(** [Multipermutation] and [MultiCombination] stand apart from
    [Combinatoric]; they keep the universal set sorted. *)
Record Multipermutation : Type := mkMultipermutation {
  mp_universal_set : list A;
  _permutation : list A
}.

Record MultiCombination : Type := mkMultiCombination {
  mc_universal_set : list A;
  _multicombination : list A
}.

Definition Multipermutation_init (universal_set : gset A)
    (permutation : list A) : result Multipermutation :=
  let self := mkMultipermutation (sorted (elements universal_set))
                                 permutation in
  if existsb (fun p => bool_decide (p ∉ universal_set)) permutation
  then Raise ValueError
  else Ret self.

Definition MultiCombination_init (universal_set : gset A)
    (multicombination : list A) : result MultiCombination :=
  let self := mkMultiCombination (sorted (elements universal_set))
                                 multicombination in
  if existsb (fun c => bool_decide (c ∉ universal_set)) multicombination
  then Raise ValueError
  else Ret self.

Definition unrank_multicombination (universal_set : gset A) (k : Z) (rank : Z)
  : result (option MultiCombination) :=
  total ← math_comb (Z.of_nat (size universal_set) + k - 1) k;
  if decide (rank > total) then Ret None
  else
    let universal_set := sorted (elements universal_set) in
    multicombination ←
      for_in (range k)
        (fun i multicombination =>
           for_in (seq 0 (length universal_set))
             (fun index multicombination =>
                c ← math_comb ((Z.of_nat (length universal_set) + k - 1) - 1)
                              (k - (i + 1));
                let index_rank := Z.of_nat index * c in
                if decide (index_rank > rank) then
                  item ← getitem universal_set (Z.of_nat index - 1);
                  Ret (multicombination ++ [item])
                else Ret multicombination)
             multicombination)
        [];
    multicombination ←
      MultiCombination_init (list_to_set universal_set) multicombination;
    Ret (Some multicombination).

(** *** Comparison operators *)

(** The objects the library creates, and a reference to one of them: two
    references are the same object when their addresses agree. *)
Inductive instance : Type :=
| OfCombinatoric (o : Combinatoric)
| OfMultipermutation (o : Multipermutation)
| OfMultiCombination (o : MultiCombination).

Record reference : Type := mkReference {
  address : nat;
  deref : instance
}.

(** The decorator [ensure_comparable].  [Combination] and [Permutation] have
    no subclass, so [isinstance(other, self.__class__)] holds exactly for an
    instance of the very class of [self]. *)
Definition ensure_comparable
    (comparison_function : Combinatoric → Combinatoric → result bool)
    (self : Combinatoric) (other : instance) : result bool :=
  match other with
  | OfCombinatoric other =>
      if decide (class_of other ≠ class_of self)
      then Raise NotImplementedError
      else if decide (_universal_set self ≠ _universal_set other)
      then Raise NotImplementedError
      else if decide (len (_combinatoric self) ≠ len (_combinatoric other))
      then Raise NotImplementedError
      else comparison_function self other
  | _ => Raise NotImplementedError
  end.

(** What [ensure_comparable] lets through. *)
Definition comparable (self other : Combinatoric) : Prop :=
  class_of other = class_of self ∧
  _universal_set self = _universal_set other ∧
  len (_combinatoric self) = len (_combinatoric other).

Definition __eq__ : Combinatoric → instance → result bool :=
  ensure_comparable (fun self _other =>
    a ← rank self; b ← rank _other; Ret (bool_decide (a = b))).

Definition __lt__ : Combinatoric → instance → result bool :=
  ensure_comparable (fun self _other =>
    a ← rank self; b ← rank _other; Ret (bool_decide (a < b))).

(** [__gt__] as [functools.total_ordering] derives it from [__lt__]:
    [not (self < other) and self != other], where [!=] negates [__eq__]. *)
Definition __gt__ (self : Combinatoric) (other : instance) : result bool :=
  op_result ← __lt__ self other;
  if (op_result : bool) then Ret false
  else (equal ← __eq__ self other; Ret (negb equal)).

(** [a == b], [a < b] and [a > b].  A class without a comparison method of
    its own answers [NotImplemented]; Python then asks the reflected method
    of the right operand, and when that fails too, [==] compares the
    identities while [<] and [>] raise [TypeError]. *)
Definition py_eq (a b : reference) : result bool :=
  match deref a, deref b with
  | OfCombinatoric self, other => __eq__ self other
  | other, OfCombinatoric self => __eq__ self other
  | _, _ => Ret (bool_decide (address a = address b))
  end.

Definition py_lt (a b : reference) : result bool :=
  match deref a, deref b with
  | OfCombinatoric self, other => __lt__ self other
  | other, OfCombinatoric self => __gt__ self other
  | _, _ => Raise TypeError
  end.

Definition py_gt (a b : reference) : result bool :=
  match deref a, deref b with
  | OfCombinatoric self, other => __gt__ self other
  | other, OfCombinatoric self => __lt__ self other
  | _, _ => Raise TypeError
  end.

End combinatorics.

Arguments Combinatoric A {_ _}.
Arguments CombinationIterator A {_ _}.
Arguments MultiCombination A : clear implicits.
Arguments Multipermutation A : clear implicits.
Arguments container A {_ _}.
Arguments instance A {_ _}.
Arguments reference A {_ _}.

(** ** Integer compositions *)

(** The built-in [sum] *)
Definition sum (l : list Z) : Z := foldr Z.add 0 l.

Record SizedIntegerComposition : Type := mkSizedIntegerComposition {
  _composition : list Z;
  _sum : Z
}.

Definition SizedIntegerComposition_init (composition : list Z)
  : SizedIntegerComposition :=
  mkSizedIntegerComposition composition (sum composition).

(** One pass of the inner loop of [unrank_sized_integer_composition]; the
    loop variables are [offset], [index] and [composition]. *)
Definition unrank_sized_integer_composition_body (n k : Z) (i : Z) (j : Z)
    (st : Z * Z * list Z) : result (flow (Z * Z * list Z)) :=
  let '(offset, index, composition) := st in
  c ← math_comb (n - (sum composition + j) - 1) (k - i - 2);
  if decide (offset + c > index) then
    Ret (Break (offset, index - offset, composition ++ [j]))
  else
    c ← math_comb (n - (sum composition + j) - 1) (k - i - 2);
    Ret (Next (offset + c, index, composition)).

Definition unrank_sized_integer_composition (n k : Z) (index : Z)
  : result (option SizedIntegerComposition) :=
  total ← math_comb (n - 1) (k - 1);
  if decide (index >= total) then Ret None
  else
    '(_, composition) ←
      for_in (range (k - 1))
        (fun i '(index, composition) =>
           '(_, index, composition) ←
             for_in_break (range_from 1 (n - 1))
               (unrank_sized_integer_composition_body n k i)
               (0, index, composition);
           Ret (index, composition))
        (index, []);
    let composition := composition ++ [n - sum composition] in
    Ret (Some (SizedIntegerComposition_init composition)).

(** [SizedIntegerComposition.rank]; the bound of the inner [range] is read
    when the generator is made, before the first call of [comb]. *)
Definition SizedIntegerComposition_rank (self : SizedIntegerComposition)
  : result Z :=
  let k := Z.of_nat (length (_composition self)) in
  for_in (range (k - 1))
    (fun i index =>
       bound ← getitem (_composition self) i;
       s ← for_in (range_from 1 bound)
             (fun j acc =>
                c ← math_comb
                      (_sum self
                       - (sum (take (Z.to_nat i) (_composition self)) + j) - 1)
                      (k - i - 2);
                Ret (acc + c))
             0;
       Ret (index + s))
    0.

(** [SizedIntegerComposition.successor] *)
Definition SizedIntegerComposition_successor (self : SizedIntegerComposition)
  : result (option SizedIntegerComposition) :=
  rank ← SizedIntegerComposition_rank self;
  unrank_sized_integer_composition
    (_sum self) (Z.of_nat (length (_composition self))) (rank + 1).

(** ** Integer partitions: the counting function [part] *)

(** The body of [part], the recursive calls being bounded by [fuel]. *)
Fixpoint part_fuel (fuel : nat) (n k l : Z) : option Z :=
  match fuel with
  | O => None
  | S fuel' =>
      if decide (n < k ∨ k ≤ 0) then Some 0
      else if decide (k = n ∨ k = 1) then Some 1
      else
        a ← part_fuel fuel' (n - l) (k - 1) l;
        b ← part_fuel fuel' (n - l * k) k 1;
        Some (a + b)
  end.

(** A bound on the depth of the recursion of [part n k l]: with [1 ≤ l]
    the first argument shrinks in both calls; with [l ≤ 0] the first call
    lowers [k] and the second one continues with [l = 1]. *)
Definition part_depth (n k l : Z) : Z :=
  if decide (1 ≤ l) then n else n + (1 - l) * k.

Definition part (n k l : Z) : Z :=
  default 0 (part_fuel (S (Z.to_nat (part_depth n k l))) n k l).

(** ** What the specification measures the code against *)

(** The partitions of [n] into [k] parts, each at least [l], smallest part
    first: the first part [a] runs from [l] to [n], and the others form a
    partition of [n - a] into parts that are at least [a]. *)
Fixpoint partitions (k : nat) (l n : Z) : list (list Z) :=
  match k with
  | O => if decide (n = 0) then [[]] else []
  | S k' =>
      a ← seqZ l (n - l + 1);
      cons a <$> partitions k' a (n - a)
  end.

(** "the number of ways to write [n] as an unordered sum of exactly [k]
    positive parts each [>= l]" *)
Definition count_partitions (n k l : Z) : Z :=
  if decide (0 ≤ k) then Z.of_nat (length (partitions (Z.to_nat k) l n))
  else 0.

Section order.
Context {A : Type} (le : relation A).

(** The order of Python on sequences: the first position where two
    sequences differ decides, and a proper prefix comes first. *)
Fixpoint lex_lt (a b : list A) : Prop :=
  match a, b with
  | _, [] => False
  | [], _ :: _ => True
  | x :: a', y :: b' => strict le x y ∨ (x = y ∧ lex_lt a' b')
  end.

End order.

(** ** The codec of combinations on sorted lists

    [unrank_walk] and [rank_walk] say in one pass over the sorted universal
    set what the nested loops of [unrank_combination] and [rank_combination]
    compute: an item is either taken, or skipped together with the block of
    all the combinations that start with it. *)

Section walk.
Context `{EqDecision A}.

Fixpoint unrank_walk (m : nat) (u : list A) (r : Z) : list A :=
  match u, m with
  | [], _ => []
  | _, O => []
  | y :: u', S m' =>
      if decide (r < comb (length u') m') then y :: unrank_walk m' u' r
      else unrank_walk m u' (r - comb (length u') m')
  end.

Fixpoint rank_walk (u : list A) (c : list A) : Z :=
  match u, c with
  | [], _ => 0
  | _, [] => 0
  | y :: u', x :: c' =>
      if decide (x = y) then rank_walk u' c'
      else comb (length u') (length c') + rank_walk u' c
  end.

End walk.

Section nth.
Context `{Countable A} (le : relation A) `{!RelDecision le}.

(** The object [unrank_walk] stands for: the combination of rank [r] among
    the [k]-subsets of [universal_set]. *)
Definition nth_combination (universal_set : gset A) (k r : Z)
  : Combinatoric A :=
  mkCombinatoric Combination universal_set
    (PySet (list_to_set
       (unrank_walk (Z.to_nat k) (sorted le (elements universal_set)) r))).

End nth.

(** ** Multi-permutations *)

(** The built-in [pow] on integers, for an exponent that is not negative. *)
Definition pow (b : Z) (e : nat) : Z := b ^ Z.of_nat e.

Section multipermutations.
Context `{Countable A} (le : relation A) `{!RelDecision le}.

(** One pass of the inner loop of [unrank_multipermutation]; the loop
    variables are [offset], [index] and [permutation]. *)
Definition unrank_multipermutation_body (sorted_items : list A) (k i : nat)
    (j : nat) (st : Z * Z * list A) : result (flow (Z * Z * list A)) :=
  let '(offset, index, permutation) := st in
  if decide (offset + pow (Z.of_nat (length sorted_items)) (k - (i + 1))
             > index)
  then
    item ← getitem sorted_items (Z.of_nat j);
    Ret (Break (offset, index - offset, permutation ++ [item]))
  else
    Ret (Next (offset + pow (Z.of_nat (length sorted_items)) (k - (i + 1)),
               index, permutation)).

(** [unrank_multipermutation], for a size [k] that is not negative: with a
    negative [k] the bound [pow(len(universal_set), k)] of the source is a
    floating-point number, which this development leaves aside. *)
Definition unrank_multipermutation (universal_set : gset A) (k : nat)
    (index : Z) : result (option (Multipermutation A)) :=
  let sorted_items := sorted le (elements universal_set) in
  if decide (index >= pow (Z.of_nat (size universal_set)) k) then Ret None
  else
    '(_, permutation) ←
      for_in (seq 0 k)
        (fun i '(index, permutation) =>
           '(_, index, permutation) ←
             for_in_break (seq 0 (length sorted_items))
               (unrank_multipermutation_body sorted_items k i)
               (0, index, permutation);
           Ret (index, permutation))
        (index, []);
    permutation ← Multipermutation_init le universal_set permutation;
    Ret (Some permutation).

(** [Multipermutation.rank] *)
Definition Multipermutation_rank (self : Multipermutation A) : result Z :=
  for_in (enumerate (_permutation self))
    (fun '(i, item) rank =>
       index ← list_index (mp_universal_set self) item;
       Ret (rank + Z.of_nat index
                   * pow (Z.of_nat (length (mp_universal_set self)))
                         (length (_permutation self) - (i + 1))))
    0.

(** [Multipermutation.successor] *)
Definition Multipermutation_successor (self : Multipermutation A)
  : result (option (Multipermutation A)) :=
  rank ← Multipermutation_rank self;
  unrank_multipermutation (list_to_set (mp_universal_set self))
                          (length (_permutation self)) (rank + 1).

End multipermutations.

(** ** The other iterators *)

Section iterators.
Context `{Countable A} (le : relation A) `{!RelDecision le}.

(** [PermuationIterator]: its cursor is set by [unrank_permutation] and
    moved by the [successor] method of the object it holds. *)
Record PermuationIterator : Type := mkPermuationIterator {
  _permuation : option (Combinatoric A)
}.

Definition PermuationIterator_init (universal_set : gset A) (k : Z)
    (initial_index : Z) : result PermuationIterator :=
  permutation ← unrank_permutation le universal_set k initial_index;
  Ret (mkPermuationIterator permutation).

(** [PermuationIterator.__next__] *)
Definition PermuationIterator_next (self : PermuationIterator)
  : result (Combinatoric A * PermuationIterator) :=
  match _permuation self with
  | Some current =>
      successor ← successor le current;
      Ret (current, mkPermuationIterator successor)
  | None => Raise StopIteration
  end.

(** [list(iterator)] for a [PermuationIterator], as [list_of_iterator]. *)
Fixpoint list_of_PermuationIterator (fuel : nat) (it : PermuationIterator)
  : result (option (list (Combinatoric A))) :=
  match fuel with
  | O => Ret None
  | S fuel' =>
      match PermuationIterator_next it with
      | Ret (current, it') =>
          rest ← list_of_PermuationIterator fuel' it';
          Ret (option_map (cons current) rest)
      | Raise StopIteration => Ret (Some [])
      | Raise e => Raise e
      end
  end.

End iterators.

Arguments PermuationIterator A {_ _}.

(** [SizedIntegerCompositionIterator]; its attribute [_composition] is the
    cursor.  An instance of [SizedIntegerComposition] defines neither
    [__bool__] nor [__len__], so [if current:] only tells an object from
    [None]. *)
Record SizedIntegerCompositionIterator : Type :=
  mkSizedIntegerCompositionIterator {
    cursor : option SizedIntegerComposition
  }.

Definition SizedIntegerCompositionIterator_init (n k : Z) (initial_index : Z)
  : result SizedIntegerCompositionIterator :=
  composition ← unrank_sized_integer_composition n k initial_index;
  Ret (mkSizedIntegerCompositionIterator composition).

(** [SizedIntegerCompositionIterator.__next__] *)
Definition SizedIntegerCompositionIterator_next
    (self : SizedIntegerCompositionIterator)
  : result (SizedIntegerComposition * SizedIntegerCompositionIterator) :=
  match cursor self with
  | Some current =>
      successor ← SizedIntegerComposition_successor current;
      Ret (current, mkSizedIntegerCompositionIterator successor)
  | None => Raise StopIteration
  end.

(** [list(iterator)] for a [SizedIntegerCompositionIterator]. *)
Fixpoint list_of_SizedIntegerCompositionIterator (fuel : nat)
    (it : SizedIntegerCompositionIterator)
  : result (option (list SizedIntegerComposition)) :=
  match fuel with
  | O => Ret None
  | S fuel' =>
      match SizedIntegerCompositionIterator_next it with
      | Ret (current, it') =>
          rest ← list_of_SizedIntegerCompositionIterator fuel' it';
          Ret (option_map (cons current) rest)
      | Raise StopIteration => Ret (Some [])
      | Raise e => Raise e
      end
  end.

(** * Properties *)

(** ** Binomial coefficients and arrangements *)

Lemma comb_0_r n : comb n 0 = 1.
Proof. by destruct n. Qed.

Lemma comb_S n k : comb (S n) (S k) = comb n k + comb n (S k).
Proof. done. Qed.

Lemma comb_nonneg n k : 0 ≤ comb n k.
Proof.
  revert k; induction n as [|n IH]; intros [|k]; simpl; try lia.
  pose proof (IH k); pose proof (IH (S k)); lia.
Qed.

Lemma comb_gt n k : (n < k)%nat → comb n k = 0.
Proof.
  revert k; induction n as [|n IH]; intros [|k] Hnk; simpl; try lia.
  rewrite !IH by lia. lia.
Qed.

Lemma comb_pos n k : (k ≤ n)%nat → 0 < comb n k.
Proof.
  revert k; induction n as [|n IH]; intros [|k] Hnk; simpl; try lia.
  pose proof (IH k ltac:(lia)). pose proof (comb_nonneg n (S k)). lia.
Qed.

Lemma math_comb_nat (n k : nat) :
  math_comb (Z.of_nat n) (Z.of_nat k) = Ret (comb n k).
Proof.
  unfold math_comb. case_decide; [|lia]. by rewrite !Nat2Z.id.
Qed.

Lemma math_comb_Z (n : nat) (k : Z) :
  0 ≤ k → math_comb (Z.of_nat n) k = Ret (comb n (Z.to_nat k)).
Proof.
  intros Hk. rewrite <- (Z2Nat.id k) at 1 by done. apply math_comb_nat.
Qed.

(** ** The codec on sorted lists *)

Section walk_facts.
Context `{EqDecision A}.
Implicit Types u c : list A.

Lemma unrank_walk_sublist m u r : unrank_walk m u r `sublist_of` u.
Proof.
  revert m r; induction u as [|y u IH]; intros m r; simpl.
  - constructor.
  - destruct m as [|m]; [apply sublist_nil_l|].
    case_decide; [apply sublist_skip | apply sublist_cons]; apply IH.
Qed.

Lemma unrank_walk_length m u r :
  0 ≤ r < comb (length u) m → length (unrank_walk m u r) = m.
Proof.
  revert m r; induction u as [|y u IH]; intros [|m] r Hr; simpl in *; try lia.
  case_decide; simpl.
  - f_equal. apply IH. lia.
  - apply IH. lia.
Qed.

(** Ranking undoes unranking. *)
Lemma rank_unrank_walk m u r :
  NoDup u → 0 ≤ r < comb (length u) m → rank_walk u (unrank_walk m u r) = r.
Proof.
  revert m r; induction u as [|y u IH]; intros m r Hu Hr.
  - destruct m; simpl in *; lia.
  - apply NoDup_cons in Hu as [Hy Hu].
    destruct m as [|m]; simpl in *; [lia|].
    case_decide as Hlt.
    + rewrite decide_True by done. apply IH; [done|lia].
    + set (r' := r - comb (length u) m).
      assert (Hr' : 0 ≤ r' < comb (length u) (S m)) by (unfold r'; lia).
      pose proof (unrank_walk_length (S m) u r' Hr') as Hlen.
      pose proof (unrank_walk_sublist (S m) u r') as Hsub.
      pose proof (IH (S m) r' Hu Hr') as Hrank.
      destruct (unrank_walk (S m) u r') as [|x w] eqn:Hw; [done|].
      simpl in Hlen.
      rewrite decide_False.
      * replace (length w) with m by lia. rewrite Hrank. unfold r'. lia.
      * intros ->. apply Hy. eapply elem_of_sublist; [|done]. left.
Qed.

Lemma sublist_cons_eq_inv y u c :
  y ∉ u → y :: c `sublist_of` y :: u → c `sublist_of` u.
Proof.
  intros Hy Hs. inversion Hs as [|? ? ? Hs'|? ? ? Hs']; subst; [done|].
  destruct Hy. eapply elem_of_sublist; [|done]. left.
Qed.

Lemma sublist_cons_ne_inv x y u c :
  x ≠ y → x :: c `sublist_of` y :: u → x :: c `sublist_of` u.
Proof. intros Hxy Hs. by inversion Hs; subst. Qed.

(** A rank stays below the number of combinations. *)
Lemma rank_walk_bound u c :
  NoDup u → c `sublist_of` u → 0 ≤ rank_walk u c < comb (length u) (length c).
Proof.
  revert c; induction u as [|y u IH]; intros c Hu Hc.
  - apply sublist_nil_r in Hc as ->. simpl. lia.
  - apply NoDup_cons in Hu as [Hy Hu].
    destruct c as [|x c]; simpl; [lia|].
    pose proof (comb_nonneg (length u) (length c)).
    pose proof (comb_nonneg (length u) (S (length c))).
    case_decide as Hxy.
    + subst x. apply sublist_cons_eq_inv in Hc; [|done].
      specialize (IH c Hu Hc). lia.
    + apply sublist_cons_ne_inv in Hc; [|done].
      specialize (IH (x :: c) Hu Hc). simpl in IH. lia.
Qed.

End walk_facts.

(** ** Sorting the items *)

Section sorted_facts.
Context `{Countable A} (le : relation A).
Context `{!RelDecision le, !PartialOrder le, !Total le}.
Implicit Types l u c : list A.

Lemma sorted_Permutation l : sorted le l ≡ₚ l.
Proof. apply merge_sort_Permutation. Qed.

Lemma length_sorted l : length (sorted le l) = length l.
Proof. by rewrite sorted_Permutation. Qed.

Lemma elem_of_sorted l x : x ∈ sorted le l ↔ x ∈ l.
Proof. by rewrite sorted_Permutation. Qed.

Lemma StronglySorted_strict l :
  StronglySorted le l → NoDup l → StronglySorted (strict le) l.
Proof.
  induction 1 as [|x l Hl IH Hx]; intros Hnd; constructor.
  - apply IH. by apply NoDup_cons in Hnd as [_ ?].
  - apply NoDup_cons in Hnd as [Hnx _].
    apply Forall_forall. intros z Hz.
    apply strict_spec_alt. split.
    + by eapply Forall_forall in Hx.
    + by intros ->.
Qed.

Lemma StronglySorted_weaken l :
  StronglySorted (strict le) l → StronglySorted le l.
Proof.
  induction 1 as [|x l Hl IH Hx]; constructor; [done|].
  eapply Forall_impl; [done|]. intros z Hz. by apply strict_include.
Qed.

Lemma StronglySorted_strict_NoDup l :
  StronglySorted (strict le) l → NoDup l.
Proof.
  induction 1 as [|x l Hl IH Hx]; constructor; [|done].
  intros Hin. eapply Forall_forall in Hx; [|done].
  by apply irreflexivity in Hx; [|apply _].
Qed.

Lemma sorted_strict l : NoDup l → StronglySorted (strict le) (sorted le l).
Proof.
  intros Hl. apply StronglySorted_strict.
  - apply StronglySorted_merge_sort; apply _.
  - by rewrite sorted_Permutation.
Qed.

(** Sorting a strictly increasing list, given in any order, returns it. *)
Lemma sorted_unique l l' :
  StronglySorted (strict le) l → l' ≡ₚ l → sorted le l' = l.
Proof.
  intros Hl Hp. apply (StronglySorted_unique le).
  - apply StronglySorted_merge_sort; apply _.
  - by apply StronglySorted_weaken.
  - by rewrite sorted_Permutation.
Qed.

Lemma StronglySorted_sublist l u :
  l `sublist_of` u → StronglySorted (strict le) u →
  StronglySorted (strict le) l.
Proof.
  induction 1 as [|x l u Hs IH|x l u Hs IH]; intros Hu.
  - constructor.
  - apply StronglySorted_inv in Hu as [Hu Hx]. constructor; [by apply IH|].
    apply Forall_forall. intros z Hz. eapply Forall_forall in Hx; [done|].
    by eapply elem_of_sublist.
  - apply StronglySorted_inv in Hu as [Hu _]. by apply IH.
Qed.

(** Among strictly increasing lists, inclusion is being a sublist. *)
Lemma sorted_subseteq_sublist u c :
  StronglySorted (strict le) u → StronglySorted (strict le) c →
  c ⊆ u → c `sublist_of` u.
Proof.
  revert c; induction u as [|y u IH]; intros c Hu Hc Hsub.
  - destruct c as [|x c]; [done|].
    specialize (Hsub x ltac:(left)). by apply elem_of_nil in Hsub.
  - destruct c as [|x c]; [apply sublist_nil_l|].
    apply StronglySorted_inv in Hu as [Hu Hy].
    apply StronglySorted_inv in Hc as [Hc Hx].
    rewrite Forall_forall in Hy, Hx.
    destruct (decide (x = y)) as [->|Hxy].
    + apply sublist_skip, IH; [done..|].
      intros z Hz. specialize (Hsub z ltac:(by right)).
      apply elem_of_cons in Hsub as [->|]; [|done].
      specialize (Hx y Hz). by apply irreflexivity in Hx; [|apply _].
    + apply sublist_cons, IH; [done|by constructor; [|apply Forall_forall]|].
      assert (Hyx : strict le y x).
      { specialize (Hsub x ltac:(left)).
        apply elem_of_cons in Hsub as [|]; [done|]. by apply Hy. }
      intros z Hz. specialize (Hsub z Hz).
      apply elem_of_cons in Hsub as [->|]; [|done].
      apply elem_of_cons in Hz as [|Hz]; [done|].
      specialize (Hx y Hz).
      destruct (irreflexivity (strict le) y). by etrans.
Qed.

(** Ranks compare as the combinations do. *)
Lemma lex_lt_rank_walk u a b :
  StronglySorted (strict le) u →
  a `sublist_of` u → b `sublist_of` u → length a = length b →
  lex_lt le a b ↔ rank_walk u a < rank_walk u b.
Proof.
  revert a b; induction u as [|y u IH]; intros a b Hu Ha Hb Hlen.
  - apply sublist_nil_r in Ha as ->. apply sublist_nil_r in Hb as ->.
    simpl. lia.
  - pose proof (StronglySorted_strict_NoDup _ Hu) as Hnd.
    apply NoDup_cons in Hnd as [Hy Hnd].
    apply StronglySorted_inv in Hu as [Hu Hall].
    rewrite Forall_forall in Hall.
    destruct a as [|x a], b as [|z b]; simplify_eq/=; [lia|].
    pose proof (comb_nonneg (length u) (length b)).
    rewrite Hlen.
    case_decide as Hxy; case_decide as Hzy; simplify_eq.
    + apply sublist_cons_eq_inv in Ha, Hb; [|done..].
      rewrite <- (IH a b) by done. split; [|by right].
      intros [Hirr|[_ ?]]; [|done].
      by apply irreflexivity in Hirr; [|apply _].
    + apply sublist_cons_eq_inv in Ha; [|done].
      apply sublist_cons_ne_inv in Hb; [|done].
      pose proof (rank_walk_bound u a Hnd Ha) as Hba.
      pose proof (rank_walk_bound u (z :: b) Hnd Hb) as Hbb.
      rewrite Hlen in Hba.
      split; [intros _; lia|]. intros _. left. apply Hall.
      eapply elem_of_sublist; [|exact Hb]. left.
    + apply sublist_cons_ne_inv in Ha; [|done].
      apply sublist_cons_eq_inv in Hb; [|done].
      pose proof (rank_walk_bound u (x :: a) Hnd Ha) as Hba.
      pose proof (rank_walk_bound u b Hnd Hb) as Hbb.
      split; [|intros ?; lia]. intros [Hlt|[? _]]; [|done].
      assert (Hyx : strict le y x).
      { apply Hall. eapply elem_of_sublist; [|exact Ha]. left. }
      exfalso. apply (irreflexivity (strict le) y). by trans x.
    + apply sublist_cons_ne_inv in Ha, Hb; [|done..].
      specialize (IH (x :: a) (z :: b) Hu Ha Hb ltac:(simpl; lia)).
      simpl in IH. rewrite IH. lia.
Qed.

End sorted_facts.

(** ** The loops of the codec of combinations *)

Lemma getitem_lookup {X : Type} (l : list X) (i : nat) (x : X) :
  l !! i = Some x → getitem l (Z.of_nat i) = Ret x.
Proof.
  intros Hl. unfold getitem. cbv zeta.
  repeat case_decide; try lia. by rewrite Nat2Z.id, Hl.
Qed.

Section codec_facts.
Context `{Countable A} (le : relation A).
Context `{!RelDecision le, !PartialOrder le, !Total le}.
Implicit Types (u c sl : list A) (C U : gset A).

Lemma unrank_combination_body_eq (k i : Z) (kl j : nat) sl y acc C r :
  k - (i + 1) = Z.of_nat kl → sl !! j = Some y →
  unrank_combination_body k i j (acc, C, sl, r) =
    let combs := comb (length (drop (S j) sl)) kl in
    if decide (acc + combs > r)
    then Ret (Break (acc + combs, C ∪ {[y]}, drop (S j) sl, r - acc))
    else Ret (Next (acc + combs, C, sl, r)).
Proof.
  intros Hk Hy. unfold unrank_combination_body.
  rewrite Nat.add_1_r, Hk, math_comb_nat. cbn [mbind result_bind].
  cbv zeta. case_decide; [|done].
  rewrite (getitem_lookup _ _ _ Hy). cbn [mbind result_bind].
  do 3 f_equal. lia.
Qed.

(** The inner loop of [unrank_combination] finds the next item of the
    combination, as one step of [unrank_walk] does. *)
Lemma unrank_inner_loop (k i : Z) (kl : nat) sl :
  k - (i + 1) = Z.of_nat kl →
  ∀ n j acc C r,
    (j + n = length sl)%nat →
    acc ≤ r < acc + comb (length (drop j sl)) (S kl) →
    ∃ ir x l' r',
      for_in_break (seq j n) (unrank_combination_body k i) (acc, C, sl, r)
        = Ret (ir, C ∪ {[x]}, l', r') ∧
      unrank_walk (S kl) (drop j sl) (r - acc) = x :: unrank_walk kl l' r' ∧
      0 ≤ r' < comb (length l') kl.
Proof.
  intros Hk. induction n as [|n IH]; intros j acc C r Hj Hr.
  - rewrite drop_ge in Hr by lia. simpl in Hr. lia.
  - destruct (lookup_lt_is_Some_2 sl j ltac:(lia)) as [y Hy].
    rewrite (drop_S _ _ _ Hy) in Hr |- *.
    cbn [length] in Hr. rewrite comb_S in Hr. cbn [seq for_in_break].
    rewrite (unrank_combination_body_eq k i kl j sl y) by done.
    cbv zeta. cbn [unrank_walk length].
    case_decide as Hgt; cbn [mbind result_bind].
    + rewrite decide_True by lia.
      eexists _, y, _, _. split; [done|]. split; [done|lia].
    + rewrite decide_False by lia.
      destruct (IH (S j) (acc + comb (length (drop (S j) sl)) kl) C r
                  ltac:(lia) ltac:(lia)) as (ir & x & l' & r' & Hloop & Hw & Hr').
      eexists ir, x, l', r'. split; [done|]. split; [|done].
      rewrite <- Hw. f_equal. lia.
Qed.

(** The outer loop collects the items [unrank_walk] lists. *)
Lemma unrank_outer_loop (k : Z) (m : nat) :
  ∀ (i : Z) C sl r,
    k = i + Z.of_nat m →
    0 ≤ r < comb (length sl) m →
    ∃ sl' r',
      for_in (seqZ i (Z.of_nat m))
        (fun i '(combination, sliced_universal_set, rank) =>
           '(_, combination, sliced_universal_set, rank) ←
             for_in_break (seq 0 (length sliced_universal_set))
               (unrank_combination_body k i)
               (0, combination, sliced_universal_set, rank);
           Ret (combination, sliced_universal_set, rank))
        (C, sl, r)
      = Ret (C ∪ list_to_set (unrank_walk m sl r), sl', r').
Proof.
  induction m as [|m IH]; intros i C sl r Hk Hr.
  - exists sl, r. cbn [Z.of_nat seqZ for_in].
    replace (unrank_walk 0 sl r) with (@nil A) by (by destruct sl).
    by rewrite list_to_set_nil, (right_id_L ∅ (∪)).
  - rewrite seqZ_cons by lia.
    replace (Z.pred (Z.of_nat (S m))) with (Z.of_nat m) by lia.
    cbn [for_in].
    destruct (unrank_inner_loop k i m sl ltac:(lia) (length sl) 0%nat 0 C r
                ltac:(lia) ltac:(by rewrite drop_0; lia))
      as (ir & x & l' & r' & -> & Hw & Hr').
    cbn [mbind result_bind].
    destruct (IH (Z.succ i) (C ∪ {[x]}) l' r' ltac:(lia) Hr')
      as (sl' & r'' & ->).
    exists sl', r''. do 3 f_equal.
    rewrite drop_0, Z.sub_0_r in Hw. rewrite Hw, list_to_set_cons.
    by rewrite (assoc_L (∪)).
Qed.

Lemma size_sorted_elements U : length (sorted le (elements U)) = size U.
Proof. by rewrite length_sorted. Qed.

(** What [unrank_combination] returns for a rank in range. *)
Lemma unrank_combination_in_range U (k : Z) (r : Z) :
  0 ≤ k → 0 ≤ r < comb (size U) (Z.to_nat k) →
  unrank_combination le U k r =
    Ret (Some (mkCombinatoric Combination U
                 (PySet (list_to_set
                    (unrank_walk (Z.to_nat k) (sorted le (elements U)) r))))).
Proof.
  intros Hk Hr. unfold unrank_combination.
  rewrite math_comb_Z by done. cbn [mbind result_bind].
  rewrite decide_False by lia. unfold range.
  rewrite <- (Z2Nat.id k) at 1 by done.
  destruct (unrank_outer_loop k (Z.to_nat k) 0 ∅
              (sorted le (elements U)) r ltac:(lia)
              ltac:(by rewrite size_sorted_elements))
    as (sl' & r' & ->).
  cbn [mbind result_bind]. rewrite (left_id_L ∅ (∪)).
  unfold Combinatoric_init.
  set (ps := unrank_walk _ _ _).
  replace (existsb _ _) with false; [done|].
  symmetry. apply not_true_is_false. intros Hex.
  apply existsb_exists in Hex as (x & Hx & Hnot).
  apply bool_decide_eq_true in Hnot. apply Hnot.
  apply list_elem_of_In in Hx. cbn [iter] in Hx.
  apply elem_of_elements, elem_of_list_to_set in Hx.
  apply elem_of_elements, (elem_of_sorted le).
  eapply elem_of_sublist; [done|]. apply unrank_walk_sublist.
Qed.

(** ... and for a rank out of range. *)
Lemma unrank_combination_out_of_range U (k : Z) (r : Z) :
  0 ≤ k → comb (size U) (Z.to_nat k) ≤ r →
  unrank_combination le U k r = Ret None.
Proof.
  intros Hk Hr. unfold unrank_combination.
  rewrite math_comb_Z by done. cbn [mbind result_bind].
  by rewrite decide_True by lia.
Qed.

Lemma list_index_middle (pre post : list A) (x : A) :
  x ∉ pre → list_index (pre ++ x :: post) x = Ret (length pre).
Proof.
  unfold list_index. induction pre as [|y pre IH]; intros Hx; simpl.
  - by rewrite decide_True.
  - apply not_elem_of_cons in Hx as [Hxy Hx]. rewrite decide_False by done.
    specialize (IH Hx). by destruct (list_find _ _) as [[??]|]; simplify_eq/=.
Qed.

(** The innermost loop of [rank_combination] adds up the blocks of the
    items in front of [x], the ones [rank_walk] skips. *)
Lemma rank_skip_loop (kz : Z) (kl : nat) (x : A) (post : list A) :
  kz = Z.of_nat kl →
  ∀ (pre front : list A) (acc : Z),
    x ∉ pre →
    ∃ d,
      for_in (seq (length front) (length pre))
        (fun rank_index rank =>
           c ← math_comb
                 (Z.of_nat (length (drop (rank_index + 1)
                                      (front ++ pre ++ x :: post))))
                 kz;
           Ret (rank + c))
        acc
      = Ret (acc + d) ∧
      ∀ c', length c' = kl →
            rank_walk (pre ++ x :: post) (x :: c') = d + rank_walk post c'.
Proof.
  intros ->. induction pre as [|y pre IH]; intros front acc Hx.
  - exists 0. split; [cbn; f_equal; lia|].
    intros c' _. cbn. rewrite decide_True by done. lia.
  - apply not_elem_of_cons in Hx as [Hxy Hx].
    replace (front ++ (y :: pre) ++ x :: post)
      with ((front ++ [y]) ++ pre ++ x :: post)
      by (by rewrite <- (assoc_L (++))).
    destruct (IH (front ++ [y])
                 (acc + comb (length (pre ++ x :: post)) kl) Hx)
      as (d & Hloop & Hwalk).
    exists (comb (length (pre ++ x :: post)) kl + d). split.
    + cbn [length seq for_in].
      rewrite (drop_app_length' (front ++ [y]))
        by (rewrite length_app; cbn; lia).
      rewrite math_comb_nat. cbn [mbind result_bind].
      rewrite length_app, Nat.add_1_r in Hloop. cbn [length] in Hloop.
      rewrite Hloop. f_equal. lia.
    + intros c' Hc'. cbn [app rank_walk length].
      rewrite decide_False by done. rewrite Hc', (Hwalk c' Hc'). lia.
Qed.

(** The loop of [rank_combination] over the items of the combination. *)
Lemma rank_loop (K : nat) :
  ∀ (c u : list A) (i : nat) (acc : Z),
    NoDup u → c `sublist_of` u → K = (i + length c)%nat →
    ∃ u',
      for_in (zip (seq i (length c)) c)
        (fun '(i, item) '(universal_set, rank) =>
           index ← list_index universal_set item;
           rank ←
             for_in (seq 0 index)
               (fun rank_index rank =>
                  c ← math_comb
                        (Z.of_nat (length (drop (rank_index + 1)
                                             universal_set)))
                        (Z.of_nat K - (Z.of_nat i + 1));
                  Ret (rank + c))
               rank;
           Ret (drop (index + 1) universal_set, rank))
        (u, acc)
      = Ret (u', acc + rank_walk u c).
Proof.
  induction c as [|x c IH]; intros u i acc Hu Hc HK.
  - exists u. cbn. replace (rank_walk u []) with 0 by (by destruct u).
    f_equal. f_equal. lia.
  - apply sublist_cons_l in Hc as (pre & post & -> & Hc).
    apply NoDup_app in Hu as (_ & Hpre & Hpost).
    assert (Hx : x ∉ pre).
    { intros Hin. apply (Hpre x Hin). left. }
    apply NoDup_cons in Hpost as [_ Hpost].
    cbn [length seq zip zip_with for_in].
    rewrite list_index_middle by done. cbn [mbind result_bind].
    destruct (rank_skip_loop (Z.of_nat K - (Z.of_nat i + 1)) (length c)
                x post ltac:(cbn in HK; lia) pre [] acc Hx)
      as (d & Hloop & Hwalk).
    cbn [length app] in Hloop. rewrite Hloop. cbn [mbind result_bind].
    replace (pre ++ x :: post) with ((pre ++ [x]) ++ post)
      by (by rewrite <- (assoc_L (++))).
    rewrite (drop_app_length' (pre ++ [x])) by (by rewrite length_app).
    destruct (IH post (S i) (acc + d) Hpost Hc ltac:(cbn in HK; lia))
      as (u' & ->).
    exists u'. do 2 f_equal.
    rewrite <- (assoc_L (++)). cbn [app]. rewrite (Hwalk c eq_refl). lia.
Qed.

(** [rank_combination] on a combination of the universal set. *)
Lemma rank_combination_walk (Ul : list A) C :
  NoDup Ul → (∀ x, x ∈ C → x ∈ Ul) →
  rank_combination le Ul C =
    Ret (rank_walk (sorted le Ul) (sorted le (elements C))).
Proof.
  intros HU HC. unfold rank_combination, enumerate.
  destruct (rank_loop (size C) (sorted le (elements C)) (sorted le Ul) 0 0)
    as (u' & ->).
  - by rewrite sorted_Permutation.
  - apply (sorted_subseteq_sublist le).
    + by apply sorted_strict.
    + apply (sorted_strict le), NoDup_elements.
    + intros x. rewrite !elem_of_sorted, elem_of_elements. apply HC.
  - by rewrite size_sorted_elements.
  - cbn [mbind result_bind]. by f_equal.
Qed.

End codec_facts.

(** ** Combinations: unranking, ranking, successor and iteration *)

Section combination_facts.
Context `{Countable A} (le : relation A).
Context `{!RelDecision le, !PartialOrder le, !Total le}.
Implicit Types (U C : gset A).

Lemma sorted_elements_strict U :
  StronglySorted (strict le) (sorted le (elements U)).
Proof. apply (sorted_strict le), NoDup_elements. Qed.

Lemma unrank_walk_strict U m r :
  StronglySorted (strict le) (unrank_walk m (sorted le (elements U)) r).
Proof.
  eapply (StronglySorted_sublist le);
    [apply unrank_walk_sublist|apply sorted_elements_strict].
Qed.

Lemma sorted_elements_unrank_walk U m r :
  sorted le (elements (list_to_set (C:=gset A)
     (unrank_walk m (sorted le (elements U)) r)))
  = unrank_walk m (sorted le (elements U)) r.
Proof.
  apply (sorted_unique le); [apply unrank_walk_strict|].
  apply elements_list_to_set.
  apply (StronglySorted_strict_NoDup le), unrank_walk_strict.
Qed.

Lemma size_unranked U (k r : Z) :
  0 ≤ k → 0 ≤ r < comb (size U) (Z.to_nat k) →
  size (list_to_set (C:=gset A)
     (unrank_walk (Z.to_nat k) (sorted le (elements U)) r)) = Z.to_nat k.
Proof.
  intros Hk Hr. rewrite size_list_to_set.
  - apply unrank_walk_length. by rewrite size_sorted_elements.
  - apply (StronglySorted_strict_NoDup le), unrank_walk_strict.
Qed.

Lemma rank_combination_unranked U (k r : Z) :
  0 ≤ k → 0 ≤ r < comb (size U) (Z.to_nat k) →
  rank_combination le (elements U)
    (list_to_set (unrank_walk (Z.to_nat k) (sorted le (elements U)) r))
  = Ret r.
Proof.
  intros Hk Hr. rewrite (rank_combination_walk le).
  - rewrite sorted_elements_unrank_walk. f_equal.
    apply rank_unrank_walk.
    + apply (StronglySorted_strict_NoDup le), sorted_elements_strict.
    + by rewrite size_sorted_elements.
  - apply NoDup_elements.
  - intros x Hx. apply elem_of_list_to_set in Hx.
    apply (elem_of_sorted le). eapply elem_of_sublist; [done|].
    apply unrank_walk_sublist.
Qed.

Lemma frozenset_PySet C : frozenset (PySet C) = C.
Proof. unfold frozenset. cbn [iter]. apply list_to_set_elements_L. Qed.

Lemma rank_nth_combination U (k r : Z) :
  0 ≤ k → 0 ≤ r < comb (size U) (Z.to_nat k) →
  rank le (nth_combination le U k r) = Ret r.
Proof.
  intros Hk Hr. unfold rank, nth_combination.
  cbn [class_of _universal_set _combinatoric].
  rewrite frozenset_PySet. by apply rank_combination_unranked.
Qed.

Lemma successor_nth_combination U (k r : Z) :
  0 ≤ k → 0 ≤ r < comb (size U) (Z.to_nat k) →
  successor le (nth_combination le U k r) = unrank_combination le U k (r + 1).
Proof.
  intros Hk Hr. unfold successor.
  rewrite rank_nth_combination by done. cbn [mbind result_bind].
  unfold nth_combination. cbn [_universal_set _combinatoric len].
  rewrite size_unranked by done. by rewrite Z2Nat.id.
Qed.

(** The iterator, started on the combination of rank [r], yields the [n]
    combinations that are left and stops. *)
Lemma list_of_iterator_from U (k : Z) (n : nat) :
  0 ≤ k →
  ∀ (r : Z) st (fuel : nat),
    0 ≤ r → r + Z.of_nat n = comb (size U) (Z.to_nat k) →
    unrank_combination le U k r = Ret st →
    (n < fuel)%nat →
    list_of_iterator le fuel (mkCombinationIterator st)
    = Ret (Some (nth_combination le U k <$> seqZ r (Z.of_nat n))).
Proof.
  intros Hk. induction n as [|n IH]; intros r st fuel Hr Hn Hst Hfuel.
  - rewrite unrank_combination_out_of_range in Hst by lia.
    simplify_eq. destruct fuel as [|fuel]; [lia|]. done.
  - rewrite unrank_combination_in_range in Hst by lia.
    simplify_eq. destruct fuel as [|fuel]; [lia|].
    cbn [list_of_iterator next _combination].
    fold (nth_combination le U k r).
    rewrite successor_nth_combination by lia.
    assert (∃ st', unrank_combination le U k (r + 1) = Ret st') as [st' Hst'].
    { destruct n.
      - eexists. apply unrank_combination_out_of_range; lia.
      - eexists. apply unrank_combination_in_range; lia. }
    rewrite Hst'. cbn [mbind result_bind].
    rewrite (IH (r + 1) st' fuel) by (done || lia).
    cbn [mbind result_bind option_map].
    rewrite (seqZ_cons r) by lia.
    replace (Z.pred (Z.of_nat (S n))) with (Z.of_nat n) by lia.
    by rewrite fmap_cons.
Qed.

(** Claim C1: for a universal set [U] of distinct comparable items, a size
    [k] with [0 <= k <= |U|] and a rank [r] with [0 <= r < C(|U|, k)],
    [unrank_combination(U, k, r)] returns a combination of [U] whose rank,
    computed by [rank_combination] on the same universal set, is [r]. *)
Theorem C1_rank_combination_of_unranked U (k r : Z) :
  0 ≤ k ≤ Z.of_nat (size U) →
  0 ≤ r < comb (size U) (Z.to_nat k) →
  ∃ c, unrank_combination le U k r = Ret (Some c) ∧
       class_of c = Combination ∧ _universal_set c = U ∧
       rank_combination le (elements U) (frozenset (_combinatoric c)) = Ret r.
Proof.
  intros [Hk _] Hr. exists (nth_combination le U k r).
  split; [by apply unrank_combination_in_range|].
  split; [done|]. split; [done|].
  unfold nth_combination. cbn [_combinatoric].
  rewrite frozenset_PySet. by apply rank_combination_unranked.
Qed.

(** Claim C7: for two combinations [a] and [b] of the same size drawn from
    [U], the sorted items of [a] come before those of [b] in lexicographic
    order exactly when [rank_combination(U, a) < rank_combination(U, b)]. *)
Theorem C7_rank_combination_lexicographic U (a b : gset A) :
  a ⊆ U → b ⊆ U → size a = size b →
  ∃ ra rb,
    rank_combination le (elements U) a = Ret ra ∧
    rank_combination le (elements U) b = Ret rb ∧
    (lex_lt le (sorted le (elements a)) (sorted le (elements b)) ↔ ra < rb).
Proof.
  intros Ha Hb Hsize.
  assert (Hsub : ∀ c : gset A, c ⊆ U →
            sorted le (elements c) `sublist_of` sorted le (elements U)).
  { intros c Hc. apply (sorted_subseteq_sublist le);
      [apply sorted_elements_strict..|].
    intros x. rewrite !(elem_of_sorted le), !elem_of_elements. apply Hc. }
  eexists _, _. split; [|split].
  - apply (rank_combination_walk le); [apply NoDup_elements|].
    intros x Hx. apply elem_of_elements. by apply Ha.
  - apply (rank_combination_walk le); [apply NoDup_elements|].
    intros x Hx. apply elem_of_elements. by apply Hb.
  - apply (lex_lt_rank_walk le); [apply sorted_elements_strict|by apply Hsub..|].
    by rewrite !size_sorted_elements.
Qed.

(** Claim C8: for [0 <= k <= |U|], draining [CombinationIterator(U, k, 0)]
    yields exactly [C(|U|, k)] combinations, the [i]-th of which has rank
    [i], and then the iterator stops. *)
Theorem C8_combination_iterator U (k : Z) :
  0 ≤ k ≤ Z.of_nat (size U) →
  ∃ it,
    CombinationIterator_init le U k 0 = Ret it ∧
    ∀ fuel : nat,
      comb (size U) (Z.to_nat k) < Z.of_nat fuel →
      ∃ objs,
        list_of_iterator le fuel it = Ret (Some objs) ∧
        Z.of_nat (length objs) = comb (size U) (Z.to_nat k) ∧
        ∀ i : nat, (i < length objs)%nat →
          ∃ c, objs !! i = Some c ∧ rank le c = Ret (Z.of_nat i).
Proof.
  intros [Hk Hle].
  pose proof (comb_pos (size U) (Z.to_nat k) ltac:(lia)) as Hpos.
  set (total := comb (size U) (Z.to_nat k)) in *.
  exists (mkCombinationIterator (Some (nth_combination le U k 0))).
  split.
  { unfold CombinationIterator_init.
    by rewrite unrank_combination_in_range by (done || lia). }
  intros fuel Hfuel.
  exists (nth_combination le U k <$> seqZ 0 total). split; [|split].
  - rewrite <- (Z2Nat.id total) by lia.
    apply list_of_iterator_from; [done|lia|fold total; lia| |lia].
    by apply unrank_combination_in_range; [|fold total; lia].
  - rewrite length_fmap, length_seqZ. lia.
  - intros i Hi. rewrite length_fmap, length_seqZ in Hi.
    exists (nth_combination le U k (Z.of_nat i)). split.
    + rewrite list_lookup_fmap, lookup_seqZ_lt by lia. done.
    + apply rank_nth_combination; [done|fold total; lia].
Qed.

(** Claim C10: when the size [k] exceeds [|U|], [unrank_combination(U, k,
    rank)] returns [None] for every [rank >= 0]. *)
Theorem C10_unrank_combination_oversized U (k rank : Z) :
  Z.of_nat (size U) < k → 0 ≤ rank →
  unrank_combination le U k rank = Ret None.
Proof.
  intros Hk Hrank. apply unrank_combination_out_of_range; [lia|].
  rewrite comb_gt by lia. done.
Qed.

End combination_facts.

Lemma C1_witness :
  ∃ c, unrank_combination String.le {["A"; "B"; "C"; "D"]} 3 2 = Ret (Some c) ∧
       class_of c = Combination ∧ _universal_set c = {["A"; "B"; "C"; "D"]} ∧
       rank_combination String.le (elements ({["A"; "B"; "C"; "D"]} : gset string))
         (frozenset (_combinatoric c)) = Ret 2.
Proof.
  apply (C1_rank_combination_of_unranked String.le {["A"; "B"; "C"; "D"]} 3 2);
    by_computation.
Defined.

Lemma C7_witness :
  ∃ ra rb,
    rank_combination String.le (elements ({["A"; "B"; "C"; "D"]} : gset string))
      {["A"; "D"]} = Ret ra ∧
    rank_combination String.le (elements ({["A"; "B"; "C"; "D"]} : gset string))
      {["B"; "C"]} = Ret rb ∧
    (lex_lt String.le (sorted String.le (elements ({["A"; "D"]} : gset string)))
                      (sorted String.le (elements ({["B"; "C"]} : gset string)))
     ↔ ra < rb).
Proof.
  apply (C7_rank_combination_lexicographic String.le
           {["A"; "B"; "C"; "D"]} {["A"; "D"]} {["B"; "C"]}).
  - apply (bool_decide_unpack _). by_computation.
  - apply (bool_decide_unpack _). by_computation.
  - by_computation.
Defined.

Lemma C8_witness :
  ∃ it,
    CombinationIterator_init String.le {["A"; "B"; "C"]} 2 0 = Ret it ∧
    ∀ fuel : nat,
      comb (size ({["A"; "B"; "C"]} : gset string)) (Z.to_nat 2)
        < Z.of_nat fuel →
      ∃ objs,
        list_of_iterator String.le fuel it = Ret (Some objs) ∧
        Z.of_nat (length objs)
          = comb (size ({["A"; "B"; "C"]} : gset string)) (Z.to_nat 2) ∧
        ∀ i : nat, (i < length objs)%nat →
          ∃ c, objs !! i = Some c ∧ rank String.le c = Ret (Z.of_nat i).
Proof.
  apply (C8_combination_iterator String.le {["A"; "B"; "C"]} 2).
  by_computation.
Defined.

Lemma C10_witness :
  unrank_combination String.le {["A"; "B"]} 3 0 = Ret None.
Proof.
  apply (C10_unrank_combination_oversized String.le {["A"; "B"]} 3 0).
  - by_computation.
  - by_computation.
Defined.

(** ** Permutations *)

(** [Permutation({'A', 'B'}, ('B', 'A'))] and [Permutation({'A', 'B'},
    ('A', 'B'))] *)
Example permutation_BA_valid :
  Combinatoric_init Permutation {["A"; "B"]} (PyTuple ["B"; "A"])
  = Ret (mkCombinatoric Permutation {["A"; "B"]} (PyTuple ["B"; "A"])).
Proof. by vm_compute. Qed.

Example permutation_AB_valid :
  Combinatoric_init Permutation {["A"; "B"]} (PyTuple ["A"; "B"])
  = Ret (mkCombinatoric Permutation {["A"; "B"]} (PyTuple ["A"; "B"])).
Proof. by vm_compute. Qed.

(** The loop of [rank_permutation] computes the rank in the factorial
    number system. *)
Example rank_permutation_wrapped_BA :
  rank_permutation_wrapped ["A"; "B"] ["B"; "A"] = Ret 1.
Proof. by vm_compute. Qed.

Example unrank_permutation_AB_1 :
  unrank_permutation String.le {["A"; "B"]} 2 1
  = Ret (Some (mkCombinatoric Permutation {["A"; "B"]} (PyTuple ["B"; "A"]))).
Proof. by vm_compute. Qed.

(** Claim C4, at the permutation the claim names: [Permutation.rank]
    hands the items over to [rank_combination] as a set, so that [(B, A)]
    over [{A, B}] gets the rank [0] of the combination [{A, B}], not the
    rank [1] that the factorial number system and the loop of
    [rank_permutation] give it. *)
Theorem C4_permutation_rank_BA :
  rank String.le (mkCombinatoric Permutation {["A"; "B"]} (PyTuple ["B"; "A"]))
  = Ret 0.
Proof. by vm_compute. Qed.

(** The same at a permutation of the tests, which expect [21]. *)
Example permutation_rank_DBC :
  rank String.le (mkCombinatoric Permutation {["A"; "B"; "C"; "D"]}
                    (PyTuple ["D"; "B"; "C"]))
  = Ret 3.
Proof. by vm_compute. Qed.

Section permutation_facts.
Context `{Countable A} (le : relation A).
Context `{!RelDecision le, !PartialOrder le, !Total le}.

(** [Permutation.rank] cannot tell two arrangements of the same items
    apart. *)
Lemma permutation_rank_order_blind (U : gset A) (p q : list A) :
  p ≡ₚ q →
  rank le (mkCombinatoric Permutation U (PyTuple p))
  = rank le (mkCombinatoric Permutation U (PyTuple q)).
Proof.
  intros Hpq. unfold rank, frozenset. cbn. f_equal.
  apply set_eq. intros x. by rewrite !elem_of_list_to_set, Hpq.
Qed.

End permutation_facts.

(** Claim C5, at a permutation: [Permutation] inherits
    [Combinatoric.successor], which unranks a combination.  The successor
    of [(A, B)], of rank [0] among the [perm(2, 2) = 2] permutations of
    [{A, B}], is reported missing although [(B, A)] follows. *)
Theorem C5_permutation_successor_AB :
  rank String.le (mkCombinatoric Permutation {["A"; "B"]} (PyTuple ["A"; "B"]))
    = Ret 0 ∧
  math_perm 2 2 = Ret 2 ∧
  successor String.le
    (mkCombinatoric Permutation {["A"; "B"]} (PyTuple ["A"; "B"]))
    = Ret None.
Proof. by vm_compute. Qed.

(** When it does return an object for a permutation, that object is a
    combination. *)
Example permutation_successor_A :
  successor String.le
    (mkCombinatoric Permutation {["A"; "B"]} (PyTuple ["A"]))
  = Ret (Some (mkCombinatoric Combination {["A"; "B"]} (PySet {["B"]}))).
Proof. by vm_compute. Qed.

(** ** Multi-combinations *)

(** Claim C3, at the multi-combinations of size 1 of [{A}]: there is
    [comb(1 + 1 - 1, 1) = 1] of them, and yet [unrank_multicombination]
    returns an object for the rank [1]; its guard is [rank > comb(...)]
    where the other codecs have [>=]. *)
Theorem C3_unrank_multicombination_at_count :
  math_comb (Z.of_nat (size ({["A"]} : gset string)) + 1 - 1) 1 = Ret 1 ∧
  unrank_multicombination String.le {["A"]} 1 1
    = Ret (Some (mkMultiCombination ["A"] [])).
Proof. by vm_compute. Qed.

Section multicombination_facts.
Context `{Countable A} (le : relation A).
Context `{!RelDecision le, !PartialOrder le, !Total le}.

(** The guard never rejects the rank equal to the count. *)
Lemma unrank_multicombination_count_accepted (U : gset A) (k total : Z) :
  math_comb (Z.of_nat (size U) + k - 1) k = Ret total →
  unrank_multicombination le U k total ≠ Ret None.
Proof.
  intros Htotal. unfold unrank_multicombination.
  rewrite Htotal. cbn [mbind result_bind].
  destruct (decide (total > total)) as [?|_]; [lia|].
  destruct (for_in _ _ _) as [mc|e]; cbn [mbind result_bind]; [|done].
  by destruct (MultiCombination_init _ _).
Qed.

(** Above the count it does. *)
Lemma unrank_multicombination_out_of_range (U : gset A) (k total rank : Z) :
  math_comb (Z.of_nat (size U) + k - 1) k = Ret total → total < rank →
  unrank_multicombination le U k rank = Ret None.
Proof.
  intros Htotal Hrank. unfold unrank_multicombination.
  rewrite Htotal. cbn [mbind result_bind].
  by destruct (decide (rank > total)) as [_|?]; [|lia].
Qed.

(** The guard of [unrank_permutation] rejects the count itself, as that of
    [unrank_combination] does. *)
Lemma unrank_permutation_out_of_range (U : gset A) (k index : Z) :
  0 ≤ k → perm (size U) (Z.to_nat k) ≤ index →
  unrank_permutation le U k index = Ret None.
Proof.
  intros Hk Hindex. unfold unrank_permutation, math_perm.
  rewrite decide_True by lia. rewrite Nat2Z.id. cbn [mbind result_bind].
  by destruct (decide (index >= _)) as [_|?]; [|lia].
Qed.

End multicombination_facts.

(** ** Integer compositions *)

(** Claim C6, at [n = 3], [k = 2] and the last index [1 < comb(2, 1)]: the
    candidates [range(1, n - 1)] for the first part stop short of [n - 1],
    so no part is chosen and the result is the 1-tuple [(3,)]. *)
Theorem C6_unrank_sized_integer_composition_3_2_1 :
  math_comb (3 - 1) (2 - 1) = Ret 2 ∧
  unrank_sized_integer_composition 3 2 1
    = Ret (Some (mkSizedIntegerComposition [3] 3)).
Proof. by vm_compute. Qed.

Example unrank_sized_integer_composition_3_2_0 :
  unrank_sized_integer_composition 3 2 0
    = Ret (Some (mkSizedIntegerComposition [1; 2] 3)).
Proof. by vm_compute. Qed.

(** The guard of [unrank_sized_integer_composition] rejects the count
    itself too. *)
Lemma unrank_sized_integer_composition_out_of_range (n k index : Z) :
  1 ≤ n → 1 ≤ k →
  comb (Z.to_nat (n - 1)) (Z.to_nat (k - 1)) ≤ index →
  unrank_sized_integer_composition n k index = Ret None.
Proof.
  intros Hn Hk Hindex. unfold unrank_sized_integer_composition, math_comb.
  rewrite decide_True by lia. cbn [mbind result_bind].
  by destruct (decide (index >= _)) as [_|?]; [|lia].
Qed.

Lemma sum_app (l1 l2 : list Z) : sum (l1 ++ l2) = sum l1 + sum l2.
Proof.
  induction l1 as [|x l1 IH]; cbn; [done|].
  fold (sum (l1 ++ l2)) (sum l1). lia.
Qed.

(** The last part absorbs the remainder: whatever is returned sums to [n]. *)
Lemma unrank_sized_integer_composition_sum (n k index : Z) c :
  unrank_sized_integer_composition n k index = Ret (Some c) →
  sum (_composition c) = n ∧ _sum c = n.
Proof.
  unfold unrank_sized_integer_composition.
  destruct (math_comb _ _) as [total|]; cbn [mbind result_bind]; [|done].
  case_decide; [done|].
  destruct (for_in _ _ _) as [[index' composition]|]; cbn [mbind result_bind];
    [|done].
  intros [= <-]. unfold SizedIntegerComposition_init.
  cbn [_composition _sum]. rewrite sum_app.
  replace (sum [n - sum composition]) with (n - sum composition)
    by (cbn; lia).
  lia.
Qed.

Lemma comb_1_r (n : nat) : comb n 1 = Z.of_nat n.
Proof.
  induction n as [|n IH]; [done|].
  rewrite comb_S, comb_0_r, IH. lia.
Qed.

Lemma unrank_sized_integer_composition_body_two (n j offset index : Z) :
  j < n →
  unrank_sized_integer_composition_body n 2 0 j (offset, index, [])
  = if decide (offset + 1 > index)
    then Ret (Break (offset, index - offset, [j]))
    else Ret (Next (offset + 1, index, [])).
Proof.
  intros Hj. unfold unrank_sized_integer_composition_body.
  replace (2 - 0 - 2) with (Z.of_nat 0) by done.
  replace (n - (sum [] + j) - 1) with (Z.of_nat (Z.to_nat (n - j - 1)))
    by (cbn; lia).
  rewrite math_comb_nat, comb_0_r. cbn [mbind result_bind].
  by case_decide.
Qed.

(** With two parts, no candidate is accepted for the last index. *)
Lemma unrank_sized_integer_composition_scan (n : Z) (m : nat) :
  ∀ j : Z,
    1 ≤ j → j + Z.of_nat m = n - 1 →
    for_in_break (seqZ j (Z.of_nat m))
      (unrank_sized_integer_composition_body n 2 0) (j - 1, n - 2, [])
    = Ret (n - 2, n - 2, []).
Proof.
  induction m as [|m IH]; intros j Hj Hm.
  - cbn. do 3 f_equal. lia.
  - rewrite seqZ_cons by lia.
    replace (Z.pred (Z.of_nat (S m))) with (Z.of_nat m) by lia.
    cbn [for_in_break].
    rewrite unrank_sized_integer_composition_body_two by lia.
    rewrite decide_False by lia. cbn [mbind result_bind].
    replace (j - 1 + 1) with (Z.succ j - 1) by lia.
    apply IH; lia.
Qed.

(** The family of inputs claim C6 fails on: two parts and the last index. *)
Lemma unrank_sized_integer_composition_two_parts_last (n : Z) :
  2 ≤ n →
  math_comb (n - 1) (2 - 1) = Ret (n - 1) ∧
  unrank_sized_integer_composition n 2 (n - 2)
    = Ret (Some (mkSizedIntegerComposition [n] n)).
Proof.
  intros Hn.
  assert (Hcount : math_comb (n - 1) (2 - 1) = Ret (n - 1)).
  { replace (n - 1) with (Z.of_nat (Z.to_nat (n - 1))) at 1 by lia.
    replace (2 - 1) with (Z.of_nat 1) by done.
    rewrite math_comb_nat, comb_1_r. f_equal. lia. }
  split; [done|].
  unfold unrank_sized_integer_composition.
  rewrite Hcount. cbn [mbind result_bind].
  rewrite decide_False by lia.
  change (range (2 - 1)) with [0]. cbn [for_in]. unfold range_from.
  replace (n - 1 - 1) with (Z.of_nat (Z.to_nat (n - 2))) by lia.
  change 0 with (1 - 1) at 2.
  rewrite unrank_sized_integer_composition_scan by lia.
  cbn. replace (n - 0) with n by lia.
  unfold SizedIntegerComposition_init. cbn. do 3 f_equal. lia.
Qed.

(** ** Comparisons *)

Section comparison_facts.
Context `{Countable A} (le : relation A).
Context `{!RelDecision le, !PartialOrder le, !Total le}.

Lemma ensure_comparable_raises f (self other : Combinatoric A) :
  ¬ comparable self other →
  ensure_comparable f self (OfCombinatoric other) = Raise NotImplementedError.
Proof.
  intros Hno. unfold ensure_comparable. repeat case_decide; try done.
  by destruct Hno.
Qed.

Lemma ensure_comparable_passes f (self other : Combinatoric A) :
  comparable self other →
  ensure_comparable f self (OfCombinatoric other) = f self other.
Proof.
  intros (? & ? & ?). unfold ensure_comparable. by repeat case_decide.
Qed.

Lemma __gt___raises (self : Combinatoric A) (other : instance A) :
  __lt__ le self other = Raise NotImplementedError →
  __gt__ le self other = Raise NotImplementedError.
Proof. unfold __gt__. by intros ->. Qed.


(** An instance of another class of the library on the right of a guarded
    object raises as well, whichever operand comes first. *)
Lemma py_eq_mixed_raises (a b : reference A) (x : Combinatoric A) :
  deref a = OfCombinatoric x → (∀ y, deref b ≠ OfCombinatoric y) →
  py_eq le a b = Raise NotImplementedError ∧
  py_eq le b a = Raise NotImplementedError.
Proof.
  intros Ha Hb. unfold py_eq. rewrite Ha.
  destruct (deref b) as [y| |]; [by destruct (Hb y)|done..].
Qed.

(** Without a guarded operand [==] never raises: it compares identities. *)
Lemma py_eq_unguarded (a b : reference A) :
  (∀ x, deref a ≠ OfCombinatoric x) → (∀ y, deref b ≠ OfCombinatoric y) →
  py_eq le a b = Ret (bool_decide (address a = address b)).
Proof.
  intros Ha Hb. unfold py_eq.
  destruct (deref a) as [x| |]; [by destruct (Ha x)|..];
    (destruct (deref b) as [y| |]; [by destruct (Hb y)|done..]).
Qed.

End comparison_facts.



(** ** The counting function [part] *)

Lemma part_depth_call_1 (n k l : Z) :
  ¬ (n < k ∨ k ≤ 0) → ¬ (k = n ∨ k = 1) →
  0 < part_depth n k l ∧ part_depth (n - l) (k - 1) l < part_depth n k l.
Proof. intros Hnk Hk. unfold part_depth. case_decide; nia. Qed.

Lemma part_depth_call_2 (n k l : Z) :
  ¬ (n < k ∨ k ≤ 0) → ¬ (k = n ∨ k = 1) →
  part_depth (n - l * k) k 1 < part_depth n k l.
Proof.
  intros Hnk Hk. unfold part_depth.
  rewrite (decide_True (P:=1 ≤ 1)) by done. case_decide; nia.
Qed.

Lemma part_fuel_S (fuel : nat) (n k l : Z) :
  part_fuel (S fuel) n k l =
    if decide (n < k ∨ k ≤ 0) then Some 0
    else if decide (k = n ∨ k = 1) then Some 1
    else
      a ← part_fuel fuel (n - l) (k - 1) l;
      b ← part_fuel fuel (n - l * k) k 1;
      Some (a + b).
Proof. done. Qed.

(** The recursion of [part] is within the depth [part_depth]: fuel beyond
    it does not change the result. *)
Lemma part_fuel_enough (fuel : nat) :
  ∀ (fuel' : nat) (n k l : Z),
    part_depth n k l ≤ Z.of_nat fuel →
    part_depth n k l ≤ Z.of_nat fuel' →
    is_Some (part_fuel (S fuel) n k l) ∧
    part_fuel (S fuel) n k l = part_fuel (S fuel') n k l.
Proof.
  induction fuel as [|fuel IH]; intros fuel' n k l Hf Hf';
    rewrite (part_fuel_S _ n k l), (part_fuel_S fuel' n k l);
    (destruct (decide (n < k ∨ k ≤ 0)) as [|Hnk]; [by eauto|]);
    (destruct (decide (k = n ∨ k = 1)) as [|Hk]; [by eauto|]);
    pose proof (part_depth_call_1 n k l Hnk Hk) as [Hpos H1];
    pose proof (part_depth_call_2 n k l Hnk Hk) as H2.
  { lia. }
  destruct fuel' as [|fuel']; [lia|].
  destruct (IH fuel' (n - l) (k - 1) l ltac:(lia) ltac:(lia)) as [[a Ha] Ea].
  destruct (IH fuel' (n - l * k) k 1 ltac:(lia) ltac:(lia)) as [[b Hb] Eb].
  rewrite <- Ea, <- Eb, Ha, Hb. cbn. split; [by eexists|done].
Qed.

Lemma part_fuel_part (fuel : nat) (n k l : Z) :
  part_depth n k l ≤ Z.of_nat fuel →
  part_fuel (S fuel) n k l = Some (part n k l).
Proof.
  intros Hf. unfold part.
  destruct (part_fuel_enough fuel (Z.to_nat (part_depth n k l)) n k l
              Hf ltac:(lia)) as [[v Hv] E].
  by rewrite <- E, Hv.
Qed.

(** [part] satisfies the equation its source text reads, on all integers:
    in particular the recursion terminates. *)
Lemma part_unfold (n k l : Z) :
  part n k l =
    if decide (n < k ∨ k ≤ 0) then 0
    else if decide (k = n ∨ k = 1) then 1
    else part (n - l) (k - 1) l + part (n - l * k) k 1.
Proof.
  pose proof (part_fuel_part (Z.to_nat (part_depth n k l)) n k l
                ltac:(lia)) as Hp.
  rewrite part_fuel_S in Hp.
  destruct (decide (n < k ∨ k ≤ 0)) as [|Hnk]; [by simplify_eq|].
  destruct (decide (k = n ∨ k = 1)) as [|Hk]; [by simplify_eq|].
  pose proof (part_depth_call_1 n k l Hnk Hk) as [Hpos H1].
  pose proof (part_depth_call_2 n k l Hnk Hk) as H2.
  destruct (Z.to_nat (part_depth n k l)) as [|fuel] eqn:Hfuel; [lia|].
  rewrite (part_fuel_part fuel) in Hp by lia.
  rewrite (part_fuel_part fuel) in Hp by lia.
  cbn in Hp. by simplify_eq.
Qed.

Lemma part_below (n k l : Z) : n < k ∨ k ≤ 0 → part n k l = 0.
Proof. intros. rewrite part_unfold. by rewrite decide_True. Qed.

(** ** The partitions of an integer *)

Lemma bind_all_nil {X Y : Type} (f : X → list Y) (xs : list X) :
  (∀ x, x ∈ xs → f x = []) → xs ≫= f = [].
Proof.
  induction xs as [|x xs IH]; intros Hf; [done|].
  rewrite bind_cons, Hf by left. apply IH. intros y Hy. apply Hf. by right.
Qed.

Lemma fmap_bind_list {X Y W : Type} (g : Y → W) (f : X → list Y)
    (xs : list X) :
  g <$> (xs ≫= f) = xs ≫= (λ x, g <$> f x).
Proof.
  induction xs as [|x xs IH]; [done|].
  by rewrite !bind_cons, fmap_app, IH.
Qed.

Lemma partitions_S (k : nat) (l n : Z) :
  partitions (S k) l n
  = seqZ l (n - l + 1) ≫= λ a, cons a <$> partitions k a (n - a).
Proof. done. Qed.

(** No partition of [n] has [k] parts of size [l] or more when [n < k * l]. *)
Lemma partitions_below (k : nat) :
  ∀ l n : Z, n < Z.of_nat k * l → partitions k l n = [].
Proof.
  induction k as [|k IH]; intros l n Hn.
  - cbn. by rewrite decide_False by lia.
  - rewrite partitions_S. apply bind_all_nil.
    intros a Ha%elem_of_seqZ. rewrite IH; [done|]. nia.
Qed.

Lemma partitions_one (l n : Z) : l ≤ n → partitions 1 l n = [[n]].
Proof.
  intros Hl. rewrite partitions_S.
  replace (n - l + 1) with (Z.of_nat (S (Z.to_nat (n - l)))) by lia.
  rewrite seqZ_S, bind_app, bind_singleton.
  rewrite bind_all_nil.
  - replace (l + Z.of_nat (Z.to_nat (n - l))) with n by lia.
    cbn. by rewrite decide_True by lia.
  - intros a Ha%elem_of_seqZ. cbn. by rewrite decide_False by lia.
Qed.

Lemma partitions_zeros (k : nat) : partitions k 0 0 = [replicate k 0].
Proof.
  induction k as [|k IH]; [done|].
  rewrite partitions_S. change (seqZ 0 (0 - 0 + 1)) with [0].
  rewrite bind_singleton. change (0 - 0) with 0. by rewrite IH.
Qed.

(** The smallest part is either [l], or larger. *)
Lemma partitions_split (k : nat) (l n : Z) :
  l ≤ n →
  partitions (S k) l n
  = (cons l <$> partitions k l (n - l)) ++ partitions (S k) (l + 1) n.
Proof.
  intros Hl. rewrite !partitions_S, seqZ_cons by lia. rewrite bind_cons.
  replace (Z.succ l) with (l + 1) by lia.
  by replace (Z.pred (n - l + 1)) with (n - (l + 1) + 1) by lia.
Qed.

(** Taking [d] off every part: the partitions into parts of size [l + d]
    or more are those of [n - d * k] into parts of size [l] or more. *)
Lemma partitions_shift (k : nat) :
  ∀ l n d : Z,
    0 ≤ l → 0 ≤ d →
    partitions k (l + d) n
    = fmap (M:=list) (Z.add d) <$> partitions k l (n - d * Z.of_nat k).
Proof.
  induction k as [|k IH]; intros l n d Hl Hd.
  - cbn [partitions]. replace (n - d * Z.of_nat 0) with n by lia.
    case_decide; reflexivity.
  - rewrite !partitions_S, fmap_bind_list.
    set (N := n - d * Z.of_nat (S k)).
    destruct (decide (N - l + 1 ≤ 0)) as [Hempty|Hsome].
    + rewrite (seqZ_nil l) by done. apply bind_all_nil.
      intros a Ha%elem_of_seqZ. rewrite partitions_below; [done|]. nia.
    + replace (n - (l + d) + 1) with ((N - l + 1) + d * Z.of_nat k) by lia.
      rewrite seqZ_app, bind_app by nia.
      rewrite (bind_all_nil _ (seqZ (l + d + (N - l + 1)) _)), app_nil_r.
      * replace (l + d) with (d + l) by lia.
        rewrite <- fmap_add_seqZ, list_fmap_bind.
        apply Forall_bind_ext, Forall_forall.
        intros a Ha%elem_of_seqZ. cbn.
        replace (d + a) with (a + d) at 2 by lia.
        rewrite IH by lia. rewrite <- !list_fmap_compose.
        replace (n - (d + a) - d * Z.of_nat k) with (N - a) by lia.
        done.
      * intros a Ha%elem_of_seqZ. rewrite partitions_below; [done|]. nia.
Qed.

(** [partitions] lists the non-decreasing sequences of [k] parts that are
    at least [l] and add up to [n], each of them once. *)
Lemma elem_of_partitions (k : nat) :
  ∀ (l n : Z) (p : list Z),
    0 ≤ l →
    p ∈ partitions k l n ↔
      length p = k ∧ Sorted Z.le p ∧ Forall (Z.le l) p ∧ sum p = n.
Proof.
  induction k as [|k IH]; intros l n p Hl.
  - cbn. split.
    + case_decide; [|by intros ?%elem_of_nil].
      intros ->%list_elem_of_singleton. by subst.
    + intros (->%nil_length_inv & _ & _ & Hs). cbn in Hs.
      rewrite decide_True by done. by left.
  - rewrite partitions_S, list_elem_of_bind. split.
    + intros (a & Hp & Ha%elem_of_seqZ).
      apply list_elem_of_fmap in Hp as (q & -> & Hq).
      apply IH in Hq as (Hlen & Hsorted & Hall & Hsum); [|lia].
      split_and!.
      * cbn. by rewrite Hlen.
      * constructor; [done|]. destruct Hall; constructor. done.
      * constructor; [lia|]. eapply Forall_impl; [done|]. cbn. lia.
      * cbn. fold (sum q). lia.
    + intros (Hlen & Hsorted & Hall & Hsum).
      destruct p as [|a q]; [done|]. cbn in Hsum. fold (sum q) in Hsum.
      apply Forall_cons in Hall as [Ha Hall].
      assert (Hq : Forall (Z.le a) q).
      { apply Sorted_StronglySorted in Hsorted; [|intros ???; lia].
        by apply StronglySorted_inv in Hsorted as [_ ?]. }
      assert (0 ≤ sum q).
      { clear -Hall Hl. induction Hall as [|x q Hx _ IHq]; cbn; [done|].
        fold (sum q). lia. }
      exists a. split.
      * apply list_elem_of_fmap. exists q. split; [done|].
        apply IH; [lia|]. split_and!; [by simplify_eq/=| |done|lia].
        by apply Sorted_inv in Hsorted as [? _].
      * apply elem_of_seqZ. lia.
Qed.

Lemma NoDup_partitions (k : nat) : ∀ l n : Z, NoDup (partitions k l n).
Proof.
  induction k as [|k IH]; intros l n.
  - cbn. case_decide; [apply NoDup_singleton|constructor].
  - rewrite partitions_S. apply NoDup_bind.
    + intros a1 a2 p _ _ (q1 & -> & _)%list_elem_of_fmap
        (q2 & [= -> _] & _)%list_elem_of_fmap. done.
    + intros a _. apply NoDup_fmap_2; [|apply IH]. by intros ?? [= ->].
    + apply NoDup_seqZ.
Qed.

(** ** [part] against the count of the partitions *)

Lemma count_partitions_nat (n l : Z) (k : nat) :
  count_partitions n (Z.of_nat k) l = Z.of_nat (length (partitions k l n)).
Proof.
  unfold count_partitions. rewrite decide_True by lia. by rewrite Nat2Z.id.
Qed.

Lemma count_partitions_below (n k l : Z) :
  0 ≤ k → n < k * l → count_partitions n k l = 0.
Proof.
  intros Hk Hn. rewrite <- (Z2Nat.id k) by done.
  rewrite count_partitions_nat, partitions_below; [done|].
  by rewrite Z2Nat.id.
Qed.

Lemma count_partitions_base (n k l : Z) :
  1 ≤ l → 1 ≤ k → k * l ≤ n → k = n ∨ k = 1 → count_partitions n k l = 1.
Proof.
  intros Hl Hk Hn Hbase. rewrite <- (Z2Nat.id k) by lia.
  rewrite count_partitions_nat.
  destruct (decide (k = 1)) as [->|Hk1].
  - change (Z.to_nat 1) with 1%nat. rewrite partitions_one by lia. done.
  - assert (l = 1) as -> by nia. assert (n = k) as -> by lia.
    change (partitions (Z.to_nat k) 1 k)
      with (partitions (Z.to_nat k) (0 + 1) k).
    rewrite (partitions_shift (Z.to_nat k) 0 k 1) by lia.
    replace (k - 1 * Z.of_nat (Z.to_nat k)) with 0 by lia.
    by rewrite partitions_zeros.
Qed.

Lemma count_partitions_rec (n k l : Z) :
  1 ≤ l → 2 ≤ k → k * l ≤ n →
  count_partitions n k l
  = count_partitions (n - l) (k - 1) l + count_partitions (n - l * k) k 1.
Proof.
  intros Hl Hk Hn.
  destruct (Z.to_nat k) as [|k'] eqn:Hk'; [lia|].
  assert (Hkk : k = Z.of_nat (S k')) by lia.
  clear Hk'. subst k.
  replace (Z.of_nat (S k') - 1) with (Z.of_nat k') by lia.
  rewrite !count_partitions_nat.
  rewrite partitions_split by nia.
  rewrite length_app, length_fmap.
  replace (l + 1) with (1 + l) by lia.
  rewrite (partitions_shift (S k') 1 n l) by lia.
  rewrite length_fmap.
  lia.
Qed.

(** Where [k] parts of size [l] or more can add up to [n], or [n < k],
    [part] counts the partitions. *)
Lemma part_count_partitions (bound : nat) :
  ∀ n k l : Z,
    n < Z.of_nat bound → 1 ≤ l → 1 ≤ k → k * l ≤ n ∨ n < k →
    part n k l = count_partitions n k l.
Proof.
  induction bound as [|bound IH]; intros n k l Hb Hl Hk Hreg;
    rewrite part_unfold;
    (destruct (decide (n < k ∨ k ≤ 0)) as [Hlow|Hlow];
       [by rewrite count_partitions_below by nia|]);
    (destruct (decide (k = n ∨ k = 1)) as [Hbase|Hbase];
       [by rewrite count_partitions_base by (done || lia)|]).
  { lia. }
  rewrite count_partitions_rec by lia.
  rewrite (IH (n - l) (k - 1) l) by nia.
  by rewrite (IH (n - l * k) k 1) by nia.
Qed.

(** Claim C2, at [n = 5], [k = 2] and [l = 3]: no two parts of size [3]
    or more add up to [5], so that the number of the partitions the claim
    counts is [0]; and yet [part(5, 2, 3)] is [1].  The first recursive
    call, [part(2, 1, 3)], ends in the base case [k == 1], which answers
    [1] without looking at [l]. *)
Theorem C2_part_5_2_3 :
  part 5 2 3 = 1 ∧
  part (5 - 3) (2 - 1) 3 = 1 ∧ part (5 - 3 * 2) 2 1 = 0 ∧
  count_partitions 5 2 3 = 0 ∧ partitions 2 3 5 = [].
Proof. by vm_compute. Qed.

(** The count of the partitions is [0] there by their definition as
    well: no sequence of two parts, each [3] or more, has the sum [5]. *)
Lemma no_partition_5_2_3 (p : list Z) :
  ¬ (length p = 2%nat ∧ Forall (Z.le 3) p ∧ sum p = 5).
Proof.
  intros (Hlen & Hparts & Hsum).
  destruct p as [|a [|b [|c p]]]; try done.
  apply Forall_cons in Hparts as [Ha Hparts].
  apply Forall_cons in Hparts as [Hb _].
  cbn in Hsum. lia.
Qed.

Example part_of_the_tests :
  part 8 2 2 = 3 ∧ part 8 3 2 = 2 ∧ part 9 4 2 = 1 ∧
  part 10 2 3 = 3 ∧ part 30 3 10 = 1 ∧ part 30 3 5 = 27.
Proof. by vm_compute. Qed.

Example part_base_cases_overlook_l :
  part 1 1 2 = 1 ∧ count_partitions 1 1 2 = 0 ∧
  part 2 2 2 = 1 ∧ count_partitions 2 2 2 = 0 ∧
  part 0 0 1 = 0 ∧ count_partitions 0 0 1 = 1.
Proof. by vm_compute. Qed.


(** * Further properties of the code *)

(** ** Combinations *)

Section walk_inverse.
Context `{EqDecision A}.
Implicit Types u c : list A.

(** Unranking undoes ranking. *)
Lemma unrank_rank_walk u c :
  NoDup u → c `sublist_of` u →
  unrank_walk (length c) u (rank_walk u c) = c.
Proof.
  revert c; induction u as [|y u IH]; intros c Hu Hc.
  - by apply sublist_nil_r in Hc as ->.
  - apply NoDup_cons in Hu as [Hy Hu].
    destruct c as [|x c]; [done|]. cbn [length unrank_walk rank_walk].
    destruct (decide (x = y)) as [->|Hxy].
    + apply sublist_cons_eq_inv in Hc; [|done].
      pose proof (rank_walk_bound u c Hu Hc).
      rewrite decide_True by lia. f_equal. by apply IH.
    + apply sublist_cons_ne_inv in Hc; [|done].
      pose proof (rank_walk_bound u (x :: c) Hu Hc).
      pose proof (comb_nonneg (length u) (length c)).
      rewrite decide_False by lia.
      replace (comb (length u) (length c) + rank_walk u (x :: c)
               - comb (length u) (length c))
        with (rank_walk u (x :: c)) by lia.
      by apply (IH (x :: c)).
Qed.

End walk_inverse.

Section combination_extras.
Context `{Countable A} (le : relation A).
Context `{!RelDecision le, !PartialOrder le, !Total le}.
Implicit Types (U C : gset A).

Lemma sorted_elements_sublist U C :
  C ⊆ U → sorted le (elements C) `sublist_of` sorted le (elements U).
Proof.
  intros HC. apply (sorted_subseteq_sublist le);
    [apply (sorted_elements_strict le)..|].
  intros x. rewrite !(elem_of_sorted le), !elem_of_elements. apply HC.
Qed.

Lemma list_to_set_sorted_elements C :
  list_to_set (sorted le (elements C)) = C.
Proof.
  apply set_eq. intros x.
  by rewrite elem_of_list_to_set, (elem_of_sorted le), elem_of_elements.
Qed.

Lemma rank_combination_subset U C :
  C ⊆ U →
  rank_combination le (elements U) C
  = Ret (rank_walk (sorted le (elements U)) (sorted le (elements C))).
Proof.
  intros HC. apply (rank_combination_walk le); [apply NoDup_elements|].
  intros x Hx. apply elem_of_elements. by apply HC.
Qed.

Lemma rank_walk_subset_bound U C :
  C ⊆ U →
  0 ≤ rank_walk (sorted le (elements U)) (sorted le (elements C))
    < comb (size U) (size C).
Proof.
  intros HC. rewrite <- (size_sorted_elements le U).
  rewrite <- (size_sorted_elements le C).
  apply rank_walk_bound; [|by apply sorted_elements_sublist].
  apply (StronglySorted_strict_NoDup le), (sorted_elements_strict le).
Qed.

Lemma nth_combination_rank_walk U C :
  C ⊆ U →
  nth_combination le U (Z.of_nat (size C))
    (rank_walk (sorted le (elements U)) (sorted le (elements C)))
  = mkCombinatoric Combination U (PySet C).
Proof.
  intros HC. unfold nth_combination. rewrite Nat2Z.id.
  rewrite <- (size_sorted_elements le C) at 1.
  rewrite unrank_rank_walk.
  - by rewrite list_to_set_sorted_elements.
  - apply (StronglySorted_strict_NoDup le), (sorted_elements_strict le).
  - by apply sorted_elements_sublist.
Qed.

(** Property X2:
    for a size and a rank that are not negative, [unrank_combination]
    returns [None] exactly from the count [comb(|U|, k)] on. *)
Theorem X2_unrank_combination_none U (k rank : Z) :
  0 ≤ k → 0 ≤ rank →
  unrank_combination le U k rank = Ret None
  ↔ comb (size U) (Z.to_nat k) ≤ rank.
Proof.
  intros Hk Hrank. split.
  - intros Hnone.
    destruct (decide (rank < comb (size U) (Z.to_nat k))) as [Hlt|]; [|lia].
    by rewrite unrank_combination_in_range in Hnone by lia.
  - by apply (unrank_combination_out_of_range le).
Qed.

(** Property X1:
    What [unrank_combination] returns for a rank that is not negative is a
    combination of [U] with exactly [k] items. *)
Theorem X1_unrank_combination_subset U (k rank : Z) (c : Combinatoric A) :
  0 ≤ rank →
  unrank_combination le U k rank = Ret (Some c) →
  class_of c = Combination ∧ _universal_set c = U ∧
  ∃ s, _combinatoric c = PySet s ∧ s ⊆ U ∧ Z.of_nat (size s) = k.
Proof.
  intros Hrank Hc.
  assert (Hk : 0 ≤ k).
  { destruct (decide (0 ≤ k)) as [|Hneg]; [done|].
    unfold unrank_combination, math_comb in Hc.
    by rewrite decide_False in Hc by lia. }
  destruct (decide (rank < comb (size U) (Z.to_nat k))) as [Hlt|Hge].
  - rewrite unrank_combination_in_range in Hc by lia. simplify_eq.
    split; [done|]. split; [done|]. eexists. split; [done|]. split.
    + intros x Hx%elem_of_list_to_set. apply elem_of_elements.
      apply (elem_of_sorted le). eapply elem_of_sublist; [done|].
      apply unrank_walk_sublist.
    + rewrite (size_unranked le) by lia. lia.
  - by rewrite unrank_combination_out_of_range in Hc by lia.
Qed.

(** Property X3:
    [rank_combination] of a combination of [U] is below the count of the
    combinations of its size. *)
Theorem X3_rank_combination_range U C :
  C ⊆ U →
  ∃ r, rank_combination le (elements U) C = Ret r ∧
       0 ≤ r < comb (size U) (size C).
Proof.
  intros HC. eexists. split; [by apply rank_combination_subset|].
  by apply rank_walk_subset_bound.
Qed.

(** Property X4:
    Unranking the rank of a combination gives the combination back. *)
Theorem X4_unrank_of_rank_combination U C :
  C ⊆ U →
  ∃ r, rank_combination le (elements U) C = Ret r ∧
       unrank_combination le U (Z.of_nat (size C)) r
       = Ret (Some (mkCombinatoric Combination U (PySet C))).
Proof.
  intros HC. eexists. split; [by apply rank_combination_subset|].
  rewrite unrank_combination_in_range.
  - do 2 f_equal. by apply nth_combination_rank_walk.
  - lia.
  - rewrite Nat2Z.id. by apply rank_walk_subset_bound.
Qed.

(** Property X5:
    Two combinations of [U] of the same size with the same rank are the
    same. *)
Theorem X5_rank_combination_injective U (a b : gset A) :
  a ⊆ U → b ⊆ U → size a = size b →
  rank_combination le (elements U) a = rank_combination le (elements U) b →
  a = b.
Proof.
  intros Ha Hb Hsize. rewrite !rank_combination_subset by done.
  intros [= Hrank].
  pose proof (nth_combination_rank_walk U a Ha) as Ea.
  pose proof (nth_combination_rank_walk U b Hb) as Eb.
  rewrite Hsize, Hrank, Eb in Ea. by simplify_eq.
Qed.

(** Property X6:
    [Combination.successor]: the successor of a combination of rank [r] is
    the combination of rank [r + 1], and [None] for the last one. *)
Theorem X6_combination_successor U C :
  C ⊆ U →
  ∃ r,
    rank le (mkCombinatoric Combination U (PySet C)) = Ret r ∧
    (r + 1 < comb (size U) (size C) →
     ∃ c', successor le (mkCombinatoric Combination U (PySet C))
             = Ret (Some c') ∧
           class_of c' = Combination ∧ _universal_set c' = U ∧
           len (_combinatoric c') = size C ∧
           rank le c' = Ret (r + 1)) ∧
    (r + 1 = comb (size U) (size C) →
     successor le (mkCombinatoric Combination U (PySet C)) = Ret None).
Proof.
  intros HC.
  set (r := rank_walk (sorted le (elements U)) (sorted le (elements C))).
  pose proof (rank_walk_subset_bound U C HC) as Hr. fold r in Hr.
  assert (Hrank : rank le (mkCombinatoric Combination U (PySet C)) = Ret r).
  { unfold rank. cbn [class_of _universal_set _combinatoric].
    rewrite frozenset_PySet. by apply rank_combination_subset. }
  exists r. split; [done|].
  unfold successor. rewrite Hrank. cbn [mbind result_bind _universal_set
    _combinatoric len].
  split.
  - intros Hnext. exists (nth_combination le U (Z.of_nat (size C)) (r + 1)).
    split; [apply (unrank_combination_in_range le); rewrite ?Nat2Z.id; lia|].
    split; [done|]. split; [done|]. split.
    + unfold nth_combination. cbn [_combinatoric len].
      rewrite (size_unranked le) by (rewrite ?Nat2Z.id; lia).
      by rewrite Nat2Z.id.
    + apply (rank_nth_combination le); rewrite ?Nat2Z.id; lia.
  - intros Hlast. apply (unrank_combination_out_of_range le);
      rewrite ?Nat2Z.id; lia.
Qed.

(** Property X7:
    [CombinationIterator] started at any index [i >= 0] yields the
    combinations of rank [i], [i + 1], ... up to the last one and stops;
    from the count on it yields nothing. *)
Theorem X7_combination_iterator_from U (k i : Z) (n : nat) :
  0 ≤ k → 0 ≤ i →
  Z.of_nat n = Z.max 0 (comb (size U) (Z.to_nat k) - i) →
  ∃ it,
    CombinationIterator_init le U k i = Ret it ∧
    ∀ fuel : nat, (n < fuel)%nat →
      ∃ objs,
        list_of_iterator le fuel it = Ret (Some objs) ∧
        length objs = n ∧
        ∀ j : nat, (j < n)%nat →
          ∃ c, objs !! j = Some c ∧ rank le c = Ret (i + Z.of_nat j).
Proof.
  intros Hk Hi Hn.
  assert (∃ st, unrank_combination le U k i = Ret st) as [st Hst].
  { destruct (decide (i < comb (size U) (Z.to_nat k))).
    - eexists. apply (unrank_combination_in_range le); lia.
    - eexists. apply (unrank_combination_out_of_range le); lia. }
  exists (mkCombinationIterator st). split.
  { unfold CombinationIterator_init. by rewrite Hst. }
  intros fuel Hfuel.
  destruct (decide (i < comb (size U) (Z.to_nat k))) as [Hlt|Hge].
  - exists (nth_combination le U k <$> seqZ i (Z.of_nat n)).
    split; [|split].
    + apply (list_of_iterator_from le); (done || lia).
    + rewrite length_fmap, length_seqZ. lia.
    + intros j Hj. exists (nth_combination le U k (i + Z.of_nat j)). split.
      * by rewrite list_lookup_fmap, lookup_seqZ_lt by lia.
      * apply (rank_nth_combination le); lia.
  - assert (n = 0%nat) as -> by lia.
    rewrite unrank_combination_out_of_range in Hst by lia. simplify_eq.
    exists []. destruct fuel as [|fuel]; [lia|].
    split; [done|]. split; [done|]. intros j Hj. lia.
Qed.

End combination_extras.

Lemma X2_witness :
  unrank_combination String.le {["A"; "B"; "C"]} 2 3 = Ret None
  ↔ comb (size ({["A"; "B"; "C"]} : gset string)) (Z.to_nat 2) ≤ 3.
Proof.
  apply (X2_unrank_combination_none String.le {["A"; "B"; "C"]} 2 3);
    by_computation.
Defined.

Lemma X1_witness :
  let c := mkCombinatoric Combination {["A"; "B"; "C"]} (PySet {["A"; "C"]}) in
  class_of c = Combination ∧ _universal_set c = {["A"; "B"; "C"]} ∧
  ∃ s : gset string,
    _combinatoric c = PySet s ∧ s ⊆ {["A"; "B"; "C"]} ∧ Z.of_nat (size s) = 2.
Proof.
  intros c.
  apply (X1_unrank_combination_subset String.le {["A"; "B"; "C"]} 2 1 c);
    by_computation.
Defined.

Lemma X3_witness :
  ∃ r, rank_combination String.le
         (elements ({["A"; "B"; "C"; "D"]} : gset string)) {["B"; "D"]}
       = Ret r ∧
       0 ≤ r < comb (size ({["A"; "B"; "C"; "D"]} : gset string))
                    (size ({["B"; "D"]} : gset string)).
Proof.
  apply (X3_rank_combination_range String.le {["A"; "B"; "C"; "D"]}
           {["B"; "D"]}).
  apply (bool_decide_unpack _). by_computation.
Defined.

Lemma X4_witness :
  ∃ r, rank_combination String.le
         (elements ({["A"; "B"; "C"; "D"]} : gset string)) {["B"; "D"]}
       = Ret r ∧
       unrank_combination String.le {["A"; "B"; "C"; "D"]}
         (Z.of_nat (size ({["B"; "D"]} : gset string))) r
       = Ret (Some (mkCombinatoric Combination {["A"; "B"; "C"; "D"]}
                      (PySet {["B"; "D"]}))).
Proof.
  apply (X4_unrank_of_rank_combination String.le {["A"; "B"; "C"; "D"]}
           {["B"; "D"]}).
  apply (bool_decide_unpack _). by_computation.
Defined.

Lemma X5_witness :
  ({["B"; "D"]} : gset string) = {["D"; "B"]}.
Proof.
  apply (X5_rank_combination_injective String.le {["A"; "B"; "C"; "D"]}
           {["B"; "D"]} {["D"; "B"]}).
  - apply (bool_decide_unpack _). by_computation.
  - apply (bool_decide_unpack _). by_computation.
  - by_computation.
  - by_computation.
Defined.

Lemma X6_witness :
  ∃ r,
    rank String.le (mkCombinatoric Combination {["A"; "B"; "C"]}
                      (PySet {["A"; "C"]})) = Ret r ∧
    (r + 1 < comb (size ({["A"; "B"; "C"]} : gset string))
                  (size ({["A"; "C"]} : gset string)) →
     ∃ c', successor String.le (mkCombinatoric Combination {["A"; "B"; "C"]}
                                  (PySet {["A"; "C"]}))
             = Ret (Some c') ∧
           class_of c' = Combination ∧
           _universal_set c' = {["A"; "B"; "C"]} ∧
           len (_combinatoric c') = size ({["A"; "C"]} : gset string) ∧
           rank String.le c' = Ret (r + 1)) ∧
    (r + 1 = comb (size ({["A"; "B"; "C"]} : gset string))
                  (size ({["A"; "C"]} : gset string)) →
     successor String.le (mkCombinatoric Combination {["A"; "B"; "C"]}
                            (PySet {["A"; "C"]})) = Ret None).
Proof.
  apply (X6_combination_successor String.le {["A"; "B"; "C"]} {["A"; "C"]}).
  apply (bool_decide_unpack _). by_computation.
Defined.

Lemma X7_witness :
  ∃ it,
    CombinationIterator_init String.le {["A"; "B"; "C"]} 2 1 = Ret it ∧
    ∀ fuel : nat, (2 < fuel)%nat →
      ∃ objs,
        list_of_iterator String.le fuel it = Ret (Some objs) ∧
        length objs = 2%nat ∧
        ∀ j : nat, (j < 2)%nat →
          ∃ c, objs !! j = Some c ∧ rank String.le c = Ret (1 + Z.of_nat j).
Proof.
  apply (X7_combination_iterator_from String.le {["A"; "B"; "C"]} 2 1 2);
    by_computation.
Defined.

(** ** Comparisons of combinations *)

Section comparison_extras.
Context `{Countable A} (le : relation A).
Context `{!RelDecision le, !PartialOrder le, !Total le}.
Implicit Types (U : gset A) (x y : reference A).

Lemma rank_of_combination U (C : gset A) :
  C ⊆ U →
  rank le (mkCombinatoric Combination U (PySet C))
  = Ret (rank_walk (sorted le (elements U)) (sorted le (elements C))).
Proof.
  intros HC. unfold rank. cbn [class_of _universal_set _combinatoric].
  rewrite frozenset_PySet. by apply (rank_combination_subset le).
Qed.

Lemma rank_walk_subset_injective U (a b : gset A) :
  a ⊆ U → b ⊆ U → size a = size b →
  rank_walk (sorted le (elements U)) (sorted le (elements a))
  = rank_walk (sorted le (elements U)) (sorted le (elements b)) →
  a = b.
Proof.
  intros Ha Hb Hsize Hrank.
  pose proof (nth_combination_rank_walk le U a Ha) as Ea.
  pose proof (nth_combination_rank_walk le U b Hb) as Eb.
  rewrite Hsize, Hrank, Eb in Ea. by simplify_eq.
Qed.

(** Property X8:
    [==] on two combinations of the same universal set and of the same size
    tells whether they hold the same items. *)
Theorem X8_combination_eq x y U (a b : gset A) :
  deref x = OfCombinatoric (mkCombinatoric Combination U (PySet a)) →
  deref y = OfCombinatoric (mkCombinatoric Combination U (PySet b)) →
  a ⊆ U → b ⊆ U → size a = size b →
  py_eq le x y = Ret (bool_decide (a = b)).
Proof.
  intros Hx Hy Ha Hb Hsize. unfold py_eq, __eq__. rewrite Hx, Hy.
  rewrite ensure_comparable_passes by done.
  rewrite !rank_of_combination by done. cbn [mbind result_bind].
  f_equal. apply bool_decide_ext. split; [|by intros ->].
  by apply rank_walk_subset_injective.
Qed.

(** Property X9:
    [<] and [>] on two combinations of the same universal set and of the
    same size follow the lexicographic order of their sorted items. *)
Theorem X9_combination_lt_gt x y U (a b : gset A) :
  deref x = OfCombinatoric (mkCombinatoric Combination U (PySet a)) →
  deref y = OfCombinatoric (mkCombinatoric Combination U (PySet b)) →
  a ⊆ U → b ⊆ U → size a = size b →
  ∃ lt gt : bool,
    py_lt le x y = Ret lt ∧ py_gt le x y = Ret gt ∧
    (lt = true ↔
     lex_lt le (sorted le (elements a)) (sorted le (elements b))) ∧
    (gt = true ↔
     lex_lt le (sorted le (elements b)) (sorted le (elements a))).
Proof.
  intros Hx Hy Ha Hb Hsize.
  set (ra := rank_walk (sorted le (elements U)) (sorted le (elements a))).
  set (rb := rank_walk (sorted le (elements U)) (sorted le (elements b))).
  assert (Hlt : __lt__ le (mkCombinatoric Combination U (PySet a))
                  (OfCombinatoric (mkCombinatoric Combination U (PySet b)))
                = Ret (bool_decide (ra < rb))).
  { unfold __lt__. rewrite ensure_comparable_passes by done.
    by rewrite !rank_of_combination. }
  assert (Heq : __eq__ le (mkCombinatoric Combination U (PySet a))
                  (OfCombinatoric (mkCombinatoric Combination U (PySet b)))
                = Ret (bool_decide (ra = rb))).
  { unfold __eq__. rewrite ensure_comparable_passes by done.
    by rewrite !rank_of_combination. }
  assert (Hlex : ∀ c d : gset A, c ⊆ U → d ⊆ U → size c = size d →
            lex_lt le (sorted le (elements c)) (sorted le (elements d))
            ↔ rank_walk (sorted le (elements U)) (sorted le (elements c))
              < rank_walk (sorted le (elements U)) (sorted le (elements d))).
  { intros c d Hc Hd Hcd. apply (lex_lt_rank_walk le).
    - apply (sorted_elements_strict le).
    - by apply (sorted_elements_sublist le).
    - by apply (sorted_elements_sublist le).
    - by rewrite !(size_sorted_elements le). }
  exists (bool_decide (ra < rb)), (bool_decide (rb < ra)).
  unfold py_lt, py_gt, __gt__. rewrite Hx, Hy, Hlt, Heq.
  split; [done|]. split.
  - clear Hlt Heq. cbn [mbind result_bind].
    destruct (bool_decide_reflect (ra < rb)),
      (bool_decide_reflect (ra = rb)), (bool_decide_reflect (rb < ra));
      (done || lia).
  - rewrite !bool_decide_eq_true. split; [by rewrite Hlex|].
    by rewrite Hlex.
Qed.

End comparison_extras.

Lemma X8_witness :
  py_eq String.le
    (mkReference 1 (OfCombinatoric
       (mkCombinatoric Combination {["A"; "B"; "C"]} (PySet {["A"; "B"]}))))
    (mkReference 2 (OfCombinatoric
       (mkCombinatoric Combination {["A"; "B"; "C"]} (PySet {["B"; "C"]}))))
  = Ret (bool_decide (({["A"; "B"]} : gset string) = {["B"; "C"]})).
Proof.
  apply (X8_combination_eq String.le _ _ {["A"; "B"; "C"]}); [done..| | |].
  - apply (bool_decide_unpack _). by_computation.
  - apply (bool_decide_unpack _). by_computation.
  - by_computation.
Defined.

Lemma X9_witness :
  ∃ lt gt : bool,
    py_lt String.le
      (mkReference 1 (OfCombinatoric
         (mkCombinatoric Combination {["A"; "B"; "C"]} (PySet {["A"; "B"]}))))
      (mkReference 2 (OfCombinatoric
         (mkCombinatoric Combination {["A"; "B"; "C"]} (PySet {["B"; "C"]}))))
    = Ret lt ∧
    py_gt String.le
      (mkReference 1 (OfCombinatoric
         (mkCombinatoric Combination {["A"; "B"; "C"]} (PySet {["A"; "B"]}))))
      (mkReference 2 (OfCombinatoric
         (mkCombinatoric Combination {["A"; "B"; "C"]} (PySet {["B"; "C"]}))))
    = Ret gt ∧
    (lt = true ↔
     lex_lt String.le
       (sorted String.le (elements ({["A"; "B"]} : gset string)))
       (sorted String.le (elements ({["B"; "C"]} : gset string)))) ∧
    (gt = true ↔
     lex_lt String.le
       (sorted String.le (elements ({["B"; "C"]} : gset string)))
       (sorted String.le (elements ({["A"; "B"]} : gset string)))).
Proof.
  apply (X9_combination_lt_gt String.le _ _ {["A"; "B"; "C"]});
    [reflexivity..| | |].
  - apply (bool_decide_unpack _). by_computation.
  - apply (bool_decide_unpack _). by_computation.
  - by_computation.
Defined.

(** ** Permutations: [unrank_permutation] and [rank_permutation] *)

Lemma perm_S n k : perm (S n) (S k) = Z.of_nat (S n) * perm n k.
Proof. done. Qed.

Lemma perm_nonneg n k : 0 ≤ perm n k.
Proof.
  revert n; induction k as [|k IH]; intros [|n]; try (simpl; lia).
  rewrite perm_S. specialize (IH n). nia.
Qed.

Lemma math_perm_nat (n k : nat) :
  math_perm (Z.of_nat n) (Z.of_nat k) = Ret (perm n k).
Proof. unfold math_perm. rewrite decide_True by lia. by rewrite !Nat2Z.id. Qed.

Section permutation_codec.
Context `{Countable A} (le : relation A).
Context `{!RelDecision le, !PartialOrder le, !Total le}.
Implicit Types (sl pm ps : list A) (U : gset A).

Lemma list_index_NoDup (l : list A) (j : nat) (x : A) :
  NoDup l → l !! j = Some x → list_index l x = Ret j.
Proof.
  intros Hl Hj. pose proof (lookup_lt_Some _ _ _ Hj) as Hlt.
  rewrite <- (take_drop_middle l j x Hj) in Hl |- *.
  apply NoDup_app in Hl as (_ & Hl & _).
  rewrite list_index_middle.
  - rewrite length_take. f_equal. lia.
  - intros Hx. apply (Hl x Hx). left.
Qed.

Lemma not_elem_of_delete_NoDup (l : list A) (j : nat) (x : A) :
  NoDup l → l !! j = Some x → x ∉ delete j l.
Proof.
  intros Hl Hj. rewrite delete_take_drop.
  rewrite <- (take_drop_middle l j x Hj) in Hl.
  apply NoDup_app in Hl as (_ & Hl2 & Hl3).
  apply NoDup_cons in Hl3 as [Hx _].
  rewrite elem_of_app. intros [Hin|Hin]; [|done]. apply (Hl2 x Hin). left.
Qed.

Lemma unrank_permutation_body_eq (k i : Z) (kl j : nat) sl x offset index pm :
  k - (i + 1) = Z.of_nat kl → sl !! j = Some x →
  unrank_permutation_body k i j (offset, index, pm, sl) =
    let p := perm (length sl - 1) kl in
    if decide (offset + p > index)
    then Ret (Break (offset, index - offset, pm ++ [x], delete j sl))
    else Ret (Next (offset + p, index, pm, sl)).
Proof.
  intros Hk Hx. unfold unrank_permutation_body.
  assert (Z.of_nat (length sl) - 1 = Z.of_nat (length sl - 1)) as ->.
  { apply lookup_lt_Some in Hx. lia. }
  rewrite Hk, math_perm_nat. cbn [mbind result_bind]. cbv zeta.
  case_decide; [|done]. by rewrite (getitem_lookup _ _ _ Hx).
Qed.

(** The inner loop of [unrank_permutation] stops at the item whose block of
    [p] ranks holds [index]. *)
Lemma unrank_permutation_inner (k i : Z) (kl : nat) sl pm index :
  k - (i + 1) = Z.of_nat kl →
  ∀ (n j : nat),
    (j + n = length sl)%nat →
    Z.of_nat j * perm (length sl - 1) kl ≤ index
      < Z.of_nat (length sl) * perm (length sl - 1) kl →
    ∃ (j' : nat) x,
      sl !! j' = Some x ∧
      Z.of_nat j' * perm (length sl - 1) kl ≤ index
        < (Z.of_nat j' + 1) * perm (length sl - 1) kl ∧
      for_in_break (seq j n) (unrank_permutation_body k i)
        (Z.of_nat j * perm (length sl - 1) kl, index, pm, sl)
      = Ret (Z.of_nat j' * perm (length sl - 1) kl,
             index - Z.of_nat j' * perm (length sl - 1) kl,
             pm ++ [x], delete j' sl).
Proof.
  intros Hk. set (p := perm (length sl - 1) kl).
  induction n as [|n IH]; intros j Hj Hindex.
  - replace j with (length sl) in Hindex by lia. lia.
  - destruct (lookup_lt_is_Some_2 sl j ltac:(lia)) as [y Hy].
    cbn [seq for_in_break].
    rewrite (unrank_permutation_body_eq k i kl j sl y) by done.
    cbv zeta. fold p. case_decide as Hgt; cbn [mbind result_bind].
    + exists j, y. split; [done|]. split; [lia|done].
    + replace (Z.of_nat j * p + p) with (Z.of_nat (S j) * p) by lia.
      apply IH; lia.
Qed.

(** The loops of [unrank_permutation] and of [rank_permutation] side by
    side: the items the first one picks are distinct items of the sliced
    universal set, and the second one, run on them, adds up [index]. *)
Lemma unrank_permutation_loops (k : Z) (K : nat) :
  k = Z.of_nat K →
  ∀ (m i : nat) index pm sl acc,
    K = (i + m)%nat → NoDup sl → 0 ≤ index < perm (length sl) m →
    ∃ ps sl' index',
      for_in (seqZ (Z.of_nat i) (Z.of_nat m))
        (fun i '(index, permutation, sliced_universal_set) =>
           '(_, index, permutation, sliced_universal_set) ←
             for_in_break (seq 0 (length sliced_universal_set))
               (unrank_permutation_body k i)
               (0, index, permutation, sliced_universal_set);
           Ret (index, permutation, sliced_universal_set))
        (index, pm, sl)
      = Ret (index', pm ++ ps, sl') ∧
      length ps = m ∧ NoDup ps ∧ (∀ x, x ∈ ps → x ∈ sl) ∧
      for_in (zip (seq i m) ps)
        (fun '(i, item) '(universal_set, rank) =>
           index ← list_index universal_set item;
           p ← math_perm (Z.of_nat (length universal_set) - 1)
                         (Z.of_nat K - 1 - Z.of_nat i);
           Ret (delete index universal_set, rank + Z.of_nat index * p))
        (sl, acc)
      = Ret (sl', acc + index).
Proof.
  intros Hk. induction m as [|m IH]; intros i index pm sl acc HK Hsl Hindex.
  - exists [], sl, index. cbn [Z.of_nat seqZ for_in seq zip zip_with].
    rewrite app_nil_r. split; [done|]. split; [done|].
    split; [constructor|]. split; [by intros x ?%elem_of_nil|].
    replace (perm (length sl) 0) with 1 in Hindex by (by destruct (length sl)).
    do 2 f_equal. lia.
  - assert (∃ n', length sl = S n') as [n' Hn'].
    { destruct sl; [simpl in Hindex; lia|by eexists]. }
    rewrite Hn', perm_S, <- Hn' in Hindex.
    assert (Hn'' : n' = (length sl - 1)%nat) by lia. rewrite Hn'' in Hindex.
    rewrite seqZ_cons by lia.
    replace (Z.pred (Z.of_nat (S m))) with (Z.of_nat m) by lia.
    cbn [for_in].
    destruct (unrank_permutation_inner k (Z.of_nat i) m sl pm index
                ltac:(lia) (length sl) 0%nat ltac:(lia) ltac:(lia))
      as (j & x & Hx & Hj & Hloop).
    rewrite Z.mul_0_l in Hloop. rewrite Hloop. cbn [mbind result_bind].
    set (p := perm (length sl - 1) m) in *.
    pose proof (lookup_lt_Some _ _ _ Hx) as Hjlt.
    assert (Hdel : length (delete j sl) = (length sl - 1)%nat).
    { by rewrite length_delete. }
    destruct (IH (S i) (index - Z.of_nat j * p) (pm ++ [x]) (delete j sl)
                (acc + Z.of_nat j * p) ltac:(lia))
      as (ps & sl' & index' & Houter & Hlen & Hnodup & Hsub & Hrank).
    { apply (sublist_NoDup _ sl); [done|apply sublist_delete]. }
    { rewrite Hdel. fold p. lia. }
    exists (x :: ps), sl', index'.
    replace (Z.succ (Z.of_nat i)) with (Z.of_nat (S i)) by lia.
    rewrite Houter. split; [by rewrite <- (assoc_L (++))|].
    split; [by rewrite <- Hlen|]. split; [|split].
    + apply NoDup_cons. split; [|done]. intros Hin%Hsub.
      by apply (not_elem_of_delete_NoDup sl j x).
    + intros y [->|Hy%Hsub]%elem_of_cons.
      * by eapply list_elem_of_lookup_2.
      * eapply elem_of_sublist; [done|apply sublist_delete].
    + change (zip (seq i (S m)) (x :: ps))
        with ((i, x) :: zip (seq (S i) m) ps).
      cbn [for_in].
      rewrite (list_index_NoDup sl j x) by done. cbn [mbind result_bind].
      replace (Z.of_nat (length sl) - 1) with (Z.of_nat (length sl - 1))
        by lia.
      replace (Z.of_nat K - 1 - Z.of_nat i) with (Z.of_nat m) by lia.
      rewrite math_perm_nat. cbn [mbind result_bind]. fold p.
      rewrite Hrank. do 2 f_equal. lia.
Qed.

Lemma elem_of_delete_ne (l : list A) (j : nat) (x y : A) :
  l !! j = Some x → y ∈ l → y ≠ x → y ∈ delete j l.
Proof.
  intros Hj Hy Hne. rewrite delete_take_drop.
  rewrite <- (take_drop_middle l j x Hj) in Hy.
  rewrite elem_of_app, elem_of_cons in Hy. rewrite elem_of_app.
  destruct Hy as [?|[?|?]]; [by left|done|by right].
Qed.

(** The same the other way round: the rank the loop of [rank_permutation]
    adds up for distinct items of the universal set is in range, and the
    loops of [unrank_permutation] pick these items again from it. *)
Lemma rank_permutation_loops (k : Z) (K : nat) :
  k = Z.of_nat K →
  ∀ ps (i : nat) pm sl acc,
    K = (i + length ps)%nat → NoDup sl → NoDup ps → (∀ x, x ∈ ps → x ∈ sl) →
    ∃ v sl' index',
      0 ≤ v < perm (length sl) (length ps) ∧
      for_in (zip (seq i (length ps)) ps)
        (fun '(i, item) '(universal_set, rank) =>
           index ← list_index universal_set item;
           p ← math_perm (Z.of_nat (length universal_set) - 1)
                         (Z.of_nat K - 1 - Z.of_nat i);
           Ret (delete index universal_set, rank + Z.of_nat index * p))
        (sl, acc)
      = Ret (sl', acc + v) ∧
      for_in (seqZ (Z.of_nat i) (Z.of_nat (length ps)))
        (fun i '(index, permutation, sliced_universal_set) =>
           '(_, index, permutation, sliced_universal_set) ←
             for_in_break (seq 0 (length sliced_universal_set))
               (unrank_permutation_body k i)
               (0, index, permutation, sliced_universal_set);
           Ret (index, permutation, sliced_universal_set))
        (v, pm, sl)
      = Ret (index', pm ++ ps, sl').
Proof.
  intros Hk. induction ps as [|x ps IH]; intros i pm sl acc HK Hsl Hps Hsub.
  - exists 0, sl, 0. cbn [length Z.of_nat seqZ for_in seq zip zip_with].
    rewrite app_nil_r, Z.add_0_r. split; [|done].
    replace (perm (length sl) 0) with 1 by (by destruct (length sl)). lia.
  - apply NoDup_cons in Hps as [Hx Hps]. cbn [length] in HK |- *.
    destruct (list_elem_of_lookup_1 sl x) as [j Hj].
    { apply Hsub. left. }
    pose proof (lookup_lt_Some _ _ _ Hj) as Hjlt.
    assert (Hdel : length (delete j sl) = (length sl - 1)%nat).
    { by rewrite length_delete. }
    set (p := perm (length sl - 1) (length ps)).
    destruct (IH (S i) (pm ++ [x]) (delete j sl) (acc + Z.of_nat j * p)
                ltac:(lia))
      as (v & sl' & index' & Hv & Hrank & Hunrank).
    { apply (sublist_NoDup _ sl); [done|apply sublist_delete]. }
    { done. }
    { intros y Hy. apply (elem_of_delete_ne sl j x); [done| |].
      - apply Hsub. by right.
      - by intros ->. }
    rewrite Hdel in Hv. fold p in Hv.
    exists (Z.of_nat j * p + v), sl', index'. split; [|split].
    + assert (length sl = S (length sl - 1)) as -> by lia.
      rewrite perm_S. fold p. nia.
    + change (zip (seq i (S (length ps))) (x :: ps))
        with ((i, x) :: zip (seq (S i) (length ps)) ps).
      cbn [for_in].
      rewrite (list_index_NoDup sl j x) by done. cbn [mbind result_bind].
      replace (Z.of_nat (length sl) - 1) with (Z.of_nat (length sl - 1))
        by lia.
      replace (Z.of_nat K - 1 - Z.of_nat i) with (Z.of_nat (length ps))
        by lia.
      rewrite math_perm_nat. cbn [mbind result_bind]. fold p.
      rewrite Hrank. do 2 f_equal. lia.
    + rewrite seqZ_cons by lia.
      replace (Z.pred (Z.of_nat (S (length ps))))
        with (Z.of_nat (length ps)) by lia.
      cbn [for_in].
      destruct (unrank_permutation_inner k (Z.of_nat i) (length ps) sl pm
                  (Z.of_nat j * p + v) ltac:(lia) (length sl) 0%nat
                  ltac:(lia))
        as (j' & x' & Hx' & Hj' & Hloop).
      { fold p. nia. }
      fold p in Hj', Hloop.
      assert (j' = j) as -> by nia.
      assert (x' = x) as -> by congruence.
      rewrite Z.mul_0_l in Hloop. rewrite Hloop. cbn [mbind result_bind].
      replace (Z.of_nat j * p + v - Z.of_nat j * p) with v by lia.
      replace (Z.succ (Z.of_nat i)) with (Z.of_nat (S i)) by lia.
      rewrite Hunrank. by rewrite <- (assoc_L (++)).
Qed.

(** What the loops amount to for [unrank_permutation] as a whole. *)
Lemma unrank_permutation_in_range U (k index : Z) :
  0 ≤ k → 0 ≤ index < perm (size U) (Z.to_nat k) →
  ∃ ps,
    unrank_permutation le U k index
    = Ret (Some (mkCombinatoric Permutation U (PyTuple ps))) ∧
    Z.of_nat (length ps) = k ∧ NoDup ps ∧ (∀ x, x ∈ ps → x ∈ U) ∧
    rank_permutation_wrapped (sorted le (elements U)) ps = Ret index.
Proof.
  intros Hk Hindex. unfold unrank_permutation. cbv zeta.
  unfold math_perm. rewrite decide_True by lia. rewrite Nat2Z.id.
  cbn [mbind result_bind]. rewrite decide_False by lia.
  destruct (unrank_permutation_loops k (Z.to_nat k) ltac:(lia) (Z.to_nat k)
              0%nat index [] (sorted le (elements U)) 0 ltac:(lia))
    as (ps & sl' & index' & Houter & Hlen & Hnodup & Hsub & Hrank).
  { apply (StronglySorted_strict_NoDup le), (sorted_elements_strict le). }
  { by rewrite (size_sorted_elements le). }
  exists ps. unfold range. rewrite <- (Z2Nat.id k) at 1 by lia.
  change 0 with (Z.of_nat 0) at 1. rewrite Houter. cbn [mbind result_bind].
  assert (HU : ∀ x, x ∈ ps → x ∈ U).
  { intros x Hx%Hsub. by apply elem_of_elements, (elem_of_sorted le). }
  unfold Combinatoric_init. cbn [iter app].
  replace (existsb _ ps) with false; cbn [mbind result_bind].
  - split; [done|]. split; [lia|]. split; [done|]. split; [done|].
    unfold rank_permutation_wrapped, enumerate. rewrite Hlen.
    by rewrite Hrank.
  - symmetry. apply not_true_iff_false. intros (x & Hx & Hno)%existsb_exists.
    apply bool_decide_eq_true in Hno. apply Hno, HU.
    by apply list_elem_of_In.
Qed.

(** Property X10:
    For an index below [perm(|U|, k)], [unrank_permutation] returns a
    permutation of [k] distinct items of [U]. *)
Theorem X10_unrank_permutation_valid U (k index : Z) :
  0 ≤ k → 0 ≤ index < perm (size U) (Z.to_nat k) →
  ∃ ps,
    unrank_permutation le U k index
    = Ret (Some (mkCombinatoric Permutation U (PyTuple ps))) ∧
    Z.of_nat (length ps) = k ∧ NoDup ps ∧ ∀ x, x ∈ ps → x ∈ U.
Proof.
  intros Hk Hindex.
  destruct (unrank_permutation_in_range U k index Hk Hindex)
    as (ps & ? & ? & ? & ? & _).
  by exists ps.
Qed.

(** Property X13:
    for a size and an index that are not negative, [unrank_permutation]
    returns [None] exactly from the count [perm(|U|, k)] on. *)
Theorem X13_unrank_permutation_none U (k index : Z) :
  0 ≤ k → 0 ≤ index →
  unrank_permutation le U k index = Ret None
  ↔ perm (size U) (Z.to_nat k) ≤ index.
Proof.
  intros Hk Hindex. split.
  - intros Hnone.
    destruct (decide (index < perm (size U) (Z.to_nat k))) as [Hlt|]; [|lia].
    destruct (unrank_permutation_in_range U k index Hk ltac:(lia))
      as (ps & Hps & _).
    by rewrite Hps in Hnone.
  - by apply (unrank_permutation_out_of_range le).
Qed.

(** Property X14:
    [Permutation.rank] does not see the order of the items: two
    arrangements of the same items get the same rank. *)
Theorem X14_permutation_rank_order_blind U (p q : list A) :
  p ≡ₚ q →
  rank le (mkCombinatoric Permutation U (PyTuple p))
  = rank le (mkCombinatoric Permutation U (PyTuple q)).
Proof. apply (permutation_rank_order_blind le). Qed.

(** Property X15:
    [successor] never returns a permutation: whatever the class of the
    object it is called on, what it returns is [None] or a combination. *)
Theorem X15_successor_is_combination (self c' : Combinatoric A) :
  successor le self = Ret (Some c') →
  class_of c' = Combination ∧ ∃ s, _combinatoric c' = PySet s.
Proof.
  unfold successor. destruct (rank le self) as [r|]; [|done].
  cbn [mbind result_bind]. unfold unrank_combination.
  destruct (math_comb _ _) as [total|]; [|done]. cbn [mbind result_bind].
  case_decide; [done|].
  destruct (for_in _ _ _) as [[[combination sl] r']|]; [|done].
  cbn [mbind result_bind]. unfold Combinatoric_init.
  destruct (existsb _ _); [done|]. cbn [mbind result_bind].
  intros [= <-]. split; [done|]. by eexists.
Qed.

End permutation_codec.

Lemma X10_witness :
  ∃ ps,
    unrank_permutation String.le {["A"; "B"; "C"]} 2 3
    = Ret (Some (mkCombinatoric Permutation {["A"; "B"; "C"]} (PyTuple ps))) ∧
    Z.of_nat (length ps) = 2 ∧ NoDup ps ∧
    ∀ x, x ∈ ps → x ∈ ({["A"; "B"; "C"]} : gset string).
Proof.
  apply (X10_unrank_permutation_valid String.le {["A"; "B"; "C"]} 2 3);
    by_computation.
Defined.

Lemma X13_witness :
  unrank_permutation String.le {["A"; "B"; "C"]} 2 6 = Ret None
  ↔ perm (size ({["A"; "B"; "C"]} : gset string)) (Z.to_nat 2) ≤ 6.
Proof.
  apply (X13_unrank_permutation_none String.le {["A"; "B"; "C"]} 2 6);
    by_computation.
Defined.

Lemma X14_witness :
  rank String.le (mkCombinatoric Permutation {["A"; "B"; "C"]}
                    (PyTuple ["C"; "A"]))
  = rank String.le (mkCombinatoric Permutation {["A"; "B"; "C"]}
                      (PyTuple ["A"; "C"])).
Proof.
  apply (X14_permutation_rank_order_blind String.le {["A"; "B"; "C"]}
           ["C"; "A"] ["A"; "C"]).
  apply (bool_decide_unpack _). by_computation.
Defined.

Lemma X15_witness :
  class_of (mkCombinatoric Combination {["A"; "B"; "C"]}
              (PySet {["A"; "C"]})) = Combination ∧
  ∃ s : gset string,
    _combinatoric (mkCombinatoric Combination {["A"; "B"; "C"]}
                     (PySet {["A"; "C"]})) = PySet s.
Proof.
  apply (X15_successor_is_combination String.le
           (mkCombinatoric Permutation {["A"; "B"; "C"]}
              (PyTuple ["B"; "A"]))).
  by_computation.
Defined.

(** ** Permutations: the order of [unrank_permutation] *)

Section permutation_order.
Context `{Countable A} (le : relation A).
Context `{!RelDecision le, !PartialOrder le, !Total le}.
Implicit Types (sl pm ps : list A) (U : gset A).

Lemma StronglySorted_lookup_lt (R : relation A) (l : list A) :
  StronglySorted R l →
  ∀ (i j : nat) (x y : A),
    l !! i = Some x → l !! j = Some y → (i < j)%nat → R x y.
Proof.
  induction 1 as [|a l Hl IH Ha]; intros i j x y Hx Hy Hij; [done|].
  destruct j as [|j]; [lia|]. destruct i as [|i]; cbn in Hx, Hy.
  - simplify_eq. eapply Forall_forall in Ha; [done|].
    by eapply list_elem_of_lookup_2.
  - apply (IH i j); (done || lia).
Qed.

(** The loops of [unrank_permutation] on two indices of the range: the
    smaller index gives the permutation that comes first in the
    lexicographic order. *)
Lemma unrank_permutation_monotone (k : Z) (K : nat) :
  k = Z.of_nat K →
  ∀ (m i : nat) index1 index2 pm1 pm2 sl,
    K = (i + m)%nat → StronglySorted (strict le) sl →
    0 ≤ index1 → index1 < index2 → index2 < perm (length sl) m →
    ∃ ps1 ps2 sl1 sl2 index1' index2',
      for_in (seqZ (Z.of_nat i) (Z.of_nat m))
        (fun i '(index, permutation, sliced_universal_set) =>
           '(_, index, permutation, sliced_universal_set) ←
             for_in_break (seq 0 (length sliced_universal_set))
               (unrank_permutation_body k i)
               (0, index, permutation, sliced_universal_set);
           Ret (index, permutation, sliced_universal_set))
        (index1, pm1, sl)
      = Ret (index1', pm1 ++ ps1, sl1) ∧
      for_in (seqZ (Z.of_nat i) (Z.of_nat m))
        (fun i '(index, permutation, sliced_universal_set) =>
           '(_, index, permutation, sliced_universal_set) ←
             for_in_break (seq 0 (length sliced_universal_set))
               (unrank_permutation_body k i)
               (0, index, permutation, sliced_universal_set);
           Ret (index, permutation, sliced_universal_set))
        (index2, pm2, sl)
      = Ret (index2', pm2 ++ ps2, sl2) ∧
      lex_lt le ps1 ps2.
Proof.
  intros Hk. induction m as [|m IH];
    intros i index1 index2 pm1 pm2 sl HK Hsl H1 H12 H2.
  - replace (perm (length sl) 0) with 1 in H2 by (by destruct (length sl)).
    lia.
  - pose proof (StronglySorted_strict_NoDup le sl Hsl) as Hnodup.
    assert (∃ n', length sl = S n') as [n' Hn'].
    { destruct sl; [simpl in H2; lia|by eexists]. }
    rewrite Hn', perm_S, <- Hn' in H2.
    assert (Hn'' : n' = (length sl - 1)%nat) by lia. rewrite Hn'' in H2.
    rewrite seqZ_cons by lia.
    replace (Z.pred (Z.of_nat (S m))) with (Z.of_nat m) by lia.
    cbn [for_in].
    destruct (unrank_permutation_inner k (Z.of_nat i) m sl pm1 index1
                ltac:(lia) (length sl) 0%nat ltac:(lia) ltac:(lia))
      as (j1 & x1 & Hx1 & Hj1 & Hloop1).
    destruct (unrank_permutation_inner k (Z.of_nat i) m sl pm2 index2
                ltac:(lia) (length sl) 0%nat ltac:(lia) ltac:(lia))
      as (j2 & x2 & Hx2 & Hj2 & Hloop2).
    rewrite Z.mul_0_l in Hloop1, Hloop2. rewrite Hloop1, Hloop2.
    cbn [mbind result_bind].
    set (p := perm (length sl - 1) m) in *.
    replace (Z.succ (Z.of_nat i)) with (Z.of_nat (S i)) by lia.
    assert (Hdel : ∀ j x, sl !! j = Some x →
              length (delete j sl) = (length sl - 1)%nat).
    { intros j x Hj. rewrite length_delete; [done|by eexists]. }
    assert (Hsorted : ∀ j, StronglySorted (strict le) (delete j sl)).
    { intros j. apply (StronglySorted_sublist le _ sl); [|done].
      apply sublist_delete. }
    destruct (decide (j1 = j2)) as [->|Hne].
    + assert (x1 = x2) as -> by congruence.
      destruct (IH (S i) (index1 - Z.of_nat j2 * p) (index2 - Z.of_nat j2 * p)
                  (pm1 ++ [x2]) (pm2 ++ [x2]) (delete j2 sl))
        as (ps1 & ps2 & sl1 & sl2 & i1 & i2 & Ho1 & Ho2 & Hlex);
        [lia|done|lia|lia| |].
      { rewrite (Hdel j2 x2) by done. fold p. lia. }
      exists (x2 :: ps1), (x2 :: ps2), sl1, sl2, i1, i2.
      rewrite Ho1, Ho2. rewrite <- !(assoc_L (++)).
      split; [done|]. split; [done|]. cbn [lex_lt]. by right.
    + assert (j1 < j2)%nat as Hlt by nia.
      destruct (unrank_permutation_loops k K Hk m (S i)
                  (index1 - Z.of_nat j1 * p) (pm1 ++ [x1]) (delete j1 sl) 0)
        as (ps1 & sl1 & i1 & Ho1 & _); [lia| | |].
      { by apply (StronglySorted_strict_NoDup le). }
      { rewrite (Hdel j1 x1) by done. fold p. lia. }
      destruct (unrank_permutation_loops k K Hk m (S i)
                  (index2 - Z.of_nat j2 * p) (pm2 ++ [x2]) (delete j2 sl) 0)
        as (ps2 & sl2 & i2 & Ho2 & _); [lia| | |].
      { by apply (StronglySorted_strict_NoDup le). }
      { rewrite (Hdel j2 x2) by done. fold p. lia. }
      exists (x1 :: ps1), (x2 :: ps2), sl1, sl2, i1, i2.
      rewrite Ho1, Ho2. rewrite <- !(assoc_L (++)).
      split; [done|]. split; [done|]. cbn [lex_lt]. left.
      by apply (StronglySorted_lookup_lt (strict le) sl Hsl j1 j2).
Qed.

(** Property X11:
    [unrank_permutation] lists the permutations in the lexicographic
    order: of two indices of the range, the smaller one gives the
    permutation that comes first. *)
Theorem X11_unrank_permutation_lexicographic U (k index1 index2 : Z) :
  0 ≤ k → 0 ≤ index1 → index1 < index2 →
  index2 < perm (size U) (Z.to_nat k) →
  ∃ ps1 ps2,
    unrank_permutation le U k index1
    = Ret (Some (mkCombinatoric Permutation U (PyTuple ps1))) ∧
    unrank_permutation le U k index2
    = Ret (Some (mkCombinatoric Permutation U (PyTuple ps2))) ∧
    lex_lt le ps1 ps2.
Proof.
  intros Hk H1 H12 H2.
  destruct (unrank_permutation_in_range le U k index1 Hk ltac:(lia))
    as (ps1 & Hps1 & _).
  destruct (unrank_permutation_in_range le U k index2 Hk ltac:(lia))
    as (ps2 & Hps2 & _).
  exists ps1, ps2. split; [done|]. split; [done|].
  destruct (unrank_permutation_monotone k (Z.to_nat k) ltac:(lia)
              (Z.to_nat k) 0%nat index1 index2 [] []
              (sorted le (elements U)) ltac:(lia))
    as (qs1 & qs2 & sl1 & sl2 & i1 & i2 & Ho1 & Ho2 & Hlex);
    [apply (sorted_elements_strict le)|lia|lia| |].
  { by rewrite (size_sorted_elements le). }
  cbn [app] in Ho1, Ho2.
  assert (Hunfold : ∀ index qs sl' index',
    0 ≤ index < perm (size U) (Z.to_nat k) →
    for_in (seqZ (Z.of_nat 0) (Z.of_nat (Z.to_nat k)))
      (fun i '(index, permutation, sliced_universal_set) =>
         '(_, index, permutation, sliced_universal_set) ←
           for_in_break (seq 0 (length sliced_universal_set))
             (unrank_permutation_body k i)
             (0, index, permutation, sliced_universal_set);
         Ret (index, permutation, sliced_universal_set))
      (index, [], sorted le (elements U))
    = Ret (index', qs, sl') →
    ∀ ps, unrank_permutation le U k index
          = Ret (Some (mkCombinatoric Permutation U (PyTuple ps))) →
          ps = qs).
  { intros index qs sl' index' Hindex Hloop ps. unfold unrank_permutation.
    cbv zeta. unfold math_perm. rewrite decide_True by lia.
    rewrite Nat2Z.id. cbn [mbind result_bind]. rewrite decide_False by lia.
    unfold range. rewrite <- (Z2Nat.id k) at 1 by lia.
    change 0 with (Z.of_nat 0) at 1. rewrite Hloop.
    cbn [mbind result_bind]. unfold Combinatoric_init.
    destruct (existsb _ _); [done|]. cbn [mbind result_bind].
    by intros [= ->]. }
  rewrite (Hunfold index1 qs1 sl1 i1 ltac:(lia) Ho1 ps1 Hps1).
  by rewrite (Hunfold index2 qs2 sl2 i2 ltac:(lia) Ho2 ps2 Hps2).
Qed.

(** Property X12:
    [unrank_permutation] reaches every permutation: each tuple of
    pairwise distinct items of [U] is returned for an index of the
    range. *)
Theorem X12_unrank_permutation_onto U ps :
  NoDup ps → (∀ x, x ∈ ps → x ∈ U) →
  ∃ index,
    0 ≤ index < perm (size U) (length ps) ∧
    unrank_permutation le U (Z.of_nat (length ps)) index
    = Ret (Some (mkCombinatoric Permutation U (PyTuple ps))).
Proof.
  intros Hps HU.
  destruct (rank_permutation_loops (A:=A) (Z.of_nat (length ps)) (length ps)
              eq_refl ps 0%nat [] (sorted le (elements U)) 0 eq_refl)
    as (v & sl' & index' & Hv & _ & Hunrank); [|done|..].
  { apply (StronglySorted_strict_NoDup le), (sorted_elements_strict le). }
  { intros x Hx. by apply (elem_of_sorted le), elem_of_elements, HU. }
  rewrite (size_sorted_elements le) in Hv.
  exists v. split; [done|].
  unfold unrank_permutation. cbv zeta. rewrite math_perm_nat.
  cbn [mbind result_bind]. rewrite decide_False by lia.
  unfold range. change 0 with (Z.of_nat 0) at 1. rewrite Hunrank.
  cbn [mbind result_bind app]. unfold Combinatoric_init. cbn [iter].
  replace (existsb _ ps) with false; [done|].
  symmetry. apply not_true_iff_false. intros (x & Hx & Hno)%existsb_exists.
  apply bool_decide_eq_true in Hno. apply Hno, HU.
  by apply list_elem_of_In.
Qed.

End permutation_order.

Lemma X11_witness :
  ∃ ps1 ps2,
    unrank_permutation String.le {["A"; "B"; "C"]} 2 1
    = Ret (Some (mkCombinatoric Permutation {["A"; "B"; "C"]} (PyTuple ps1))) ∧
    unrank_permutation String.le {["A"; "B"; "C"]} 2 4
    = Ret (Some (mkCombinatoric Permutation {["A"; "B"; "C"]} (PyTuple ps2))) ∧
    lex_lt String.le ps1 ps2.
Proof.
  apply (X11_unrank_permutation_lexicographic String.le {["A"; "B"; "C"]}
           2 1 4); by_computation.
Defined.

Lemma X12_witness :
  ∃ index,
    0 ≤ index < perm (size ({["A"; "B"; "C"]} : gset string))
                     (length ["C"; "A"]) ∧
    unrank_permutation String.le {["A"; "B"; "C"]}
      (Z.of_nat (length ["C"; "A"])) index
    = Ret (Some (mkCombinatoric Permutation {["A"; "B"; "C"]}
                   (PyTuple ["C"; "A"]))).
Proof.
  apply (X12_unrank_permutation_onto String.le {["A"; "B"; "C"]}
           ["C"; "A"]).
  - apply (bool_decide_unpack _). by_computation.
  - apply Forall_forall. apply (bool_decide_unpack _). by_computation.
Defined.

(** ** Multi-permutations *)

Lemma pow_0 (b : Z) : pow b 0 = 1.
Proof. done. Qed.

Lemma pow_S (b : Z) (e : nat) : pow b (S e) = b * pow b e.
Proof. unfold pow. rewrite Nat2Z.inj_succ. apply Z.pow_succ_r. lia. Qed.

Lemma pow_pos (b : Z) (e : nat) : 0 < b → 0 < pow b e.
Proof. intros Hb. unfold pow. apply Z.pow_pos_nonneg; lia. Qed.

Section multipermutation_facts.
Context `{Countable A} (le : relation A).
Context `{!RelDecision le, !PartialOrder le, !Total le}.
Implicit Types (items pm ps : list A) (U : gset A).

Lemma unrank_multipermutation_body_eq items (k i kl j : nat) x offset index pm :
  (k - (i + 1))%nat = kl → items !! j = Some x →
  unrank_multipermutation_body items k i j (offset, index, pm) =
    let p := pow (Z.of_nat (length items)) kl in
    if decide (offset + p > index)
    then Ret (Break (offset, index - offset, pm ++ [x]))
    else Ret (Next (offset + p, index, pm)).
Proof.
  intros Hk Hx. unfold unrank_multipermutation_body. rewrite Hk. cbv zeta.
  case_decide; [|done]. by rewrite (getitem_lookup _ _ _ Hx).
Qed.

(** The inner loop of [unrank_multipermutation] stops at the item whose
    block of [p] ranks holds [index]. *)
Lemma unrank_multipermutation_inner items (k i kl : nat) pm index :
  (k - (i + 1))%nat = kl →
  ∀ (n j : nat),
    (j + n = length items)%nat →
    Z.of_nat j * pow (Z.of_nat (length items)) kl ≤ index
      < Z.of_nat (length items) * pow (Z.of_nat (length items)) kl →
    ∃ (j' : nat) x,
      items !! j' = Some x ∧
      Z.of_nat j' * pow (Z.of_nat (length items)) kl ≤ index
        < (Z.of_nat j' + 1) * pow (Z.of_nat (length items)) kl ∧
      for_in_break (seq j n) (unrank_multipermutation_body items k i)
        (Z.of_nat j * pow (Z.of_nat (length items)) kl, index, pm)
      = Ret (Z.of_nat j' * pow (Z.of_nat (length items)) kl,
             index - Z.of_nat j' * pow (Z.of_nat (length items)) kl,
             pm ++ [x]).
Proof.
  intros Hk. set (p := pow (Z.of_nat (length items)) kl).
  induction n as [|n IH]; intros j Hj Hindex.
  - replace j with (length items) in Hindex by lia. lia.
  - destruct (lookup_lt_is_Some_2 items j ltac:(lia)) as [y Hy].
    cbn [seq for_in_break].
    rewrite (unrank_multipermutation_body_eq items k i kl j y) by done.
    cbv zeta. fold p. case_decide as Hgt; cbn [mbind result_bind].
    + exists j, y. split; [done|]. split; [lia|done].
    + replace (Z.of_nat j * p + p) with (Z.of_nat (S j) * p) by lia.
      apply IH; lia.
Qed.

(** The loops of [unrank_multipermutation] and of [Multipermutation.rank]
    side by side. *)
Lemma unrank_multipermutation_loops items (k : nat) :
  NoDup items →
  ∀ (m i : nat) index pm acc,
    k = (i + m)%nat → 0 ≤ index < pow (Z.of_nat (length items)) m →
    ∃ ps index',
      for_in (seq i m)
        (fun i '(index, permutation) =>
           '(_, index, permutation) ←
             for_in_break (seq 0 (length items))
               (unrank_multipermutation_body items k i)
               (0, index, permutation);
           Ret (index, permutation))
        (index, pm)
      = Ret (index', pm ++ ps) ∧
      length ps = m ∧ (∀ x, x ∈ ps → x ∈ items) ∧
      for_in (zip (seq i m) ps)
        (fun '(i, item) rank =>
           index ← list_index items item;
           Ret (rank + Z.of_nat index
                       * pow (Z.of_nat (length items)) (k - (i + 1))))
        acc
      = Ret (acc + index).
Proof.
  intros Hitems. induction m as [|m IH]; intros i index pm acc Hk Hindex.
  - exists [], index. cbn [seq for_in zip zip_with].
    rewrite app_nil_r. split; [done|]. split; [done|].
    split; [by intros x ?%elem_of_nil|]. rewrite pow_0 in Hindex.
    f_equal. lia.
  - rewrite pow_S in Hindex. cbn [seq for_in].
    set (p := pow (Z.of_nat (length items)) m) in *.
    destruct (unrank_multipermutation_inner items k i m pm index
                ltac:(lia) (length items) 0%nat ltac:(lia) ltac:(fold p; lia))
      as (j & x & Hx & Hj & Hloop).
    fold p in Hj, Hloop.
    rewrite Z.mul_0_l in Hloop. rewrite Hloop. cbn [mbind result_bind].
    destruct (IH (S i) (index - Z.of_nat j * p) (pm ++ [x])
                (acc + Z.of_nat j * p) ltac:(lia) ltac:(lia))
      as (ps & index' & Houter & Hlen & Hsub & Hrank).
    exists (x :: ps), index'.
    rewrite Houter. split; [by rewrite <- (assoc_L (++))|].
    split; [by rewrite <- Hlen|]. split.
    + intros y [->|Hy%Hsub]%elem_of_cons; [|done].
      by eapply list_elem_of_lookup_2.
    + change (zip (i :: seq (S i) m) (x :: ps))
        with ((i, x) :: zip (seq (S i) m) ps).
      cbn [for_in].
      rewrite (list_index_NoDup items j x) by done. cbn [mbind result_bind].
      replace (k - (i + 1))%nat with m by lia. fold p.
      rewrite Hrank. f_equal. lia.
Qed.

(** The same the other way round. *)
Lemma rank_multipermutation_loops items (k : nat) :
  NoDup items →
  ∀ ps (i : nat) pm acc,
    k = (i + length ps)%nat → (∀ x, x ∈ ps → x ∈ items) →
    ∃ v index',
      0 ≤ v < pow (Z.of_nat (length items)) (length ps) ∧
      for_in (zip (seq i (length ps)) ps)
        (fun '(i, item) rank =>
           index ← list_index items item;
           Ret (rank + Z.of_nat index
                       * pow (Z.of_nat (length items)) (k - (i + 1))))
        acc
      = Ret (acc + v) ∧
      for_in (seq i (length ps))
        (fun i '(index, permutation) =>
           '(_, index, permutation) ←
             for_in_break (seq 0 (length items))
               (unrank_multipermutation_body items k i)
               (0, index, permutation);
           Ret (index, permutation))
        (v, pm)
      = Ret (index', pm ++ ps).
Proof.
  intros Hitems. induction ps as [|x ps IH]; intros i pm acc Hk Hsub.
  - exists 0, 0. cbn [length seq for_in zip zip_with].
    rewrite app_nil_r, Z.add_0_r, pow_0. split; [lia|done].
  - cbn [length] in Hk |- *.
    destruct (list_elem_of_lookup_1 items x) as [j Hj].
    { apply Hsub. left. }
    pose proof (lookup_lt_Some _ _ _ Hj) as Hjlt.
    set (p := pow (Z.of_nat (length items)) (length ps)).
    destruct (IH (S i) (pm ++ [x]) (acc + Z.of_nat j * p) ltac:(lia))
      as (v & index' & Hv & Hrank & Hunrank).
    { intros y Hy. apply Hsub. by right. }
    fold p in Hv.
    exists (Z.of_nat j * p + v), index'. split; [|split].
    + rewrite pow_S. fold p. nia.
    + change (zip (seq i (S (length ps))) (x :: ps))
        with ((i, x) :: zip (seq (S i) (length ps)) ps).
      cbn [for_in].
      rewrite (list_index_NoDup items j x) by done. cbn [mbind result_bind].
      replace (k - (i + 1))%nat with (length ps) by lia. fold p.
      rewrite Hrank. f_equal. lia.
    + cbn [seq for_in].
      destruct (unrank_multipermutation_inner items k i (length ps) pm
                  (Z.of_nat j * p + v) ltac:(lia) (length items) 0%nat
                  ltac:(lia))
        as (j' & x' & Hx' & Hj' & Hloop).
      { fold p. nia. }
      fold p in Hj', Hloop.
      assert (j' = j) as -> by nia.
      assert (x' = x) as -> by congruence.
      rewrite Z.mul_0_l in Hloop. rewrite Hloop. cbn [mbind result_bind].
      replace (Z.of_nat j * p + v - Z.of_nat j * p) with v by lia.
      rewrite Hunrank. by rewrite <- (assoc_L (++)).
Qed.

Lemma Multipermutation_init_ok U ps :
  (∀ x, x ∈ ps → x ∈ U) →
  Multipermutation_init le U ps
  = Ret (mkMultipermutation (sorted le (elements U)) ps).
Proof.
  intros HU. unfold Multipermutation_init. cbv zeta.
  replace (existsb _ ps) with false; [done|].
  symmetry. apply not_true_iff_false. intros (x & Hx & Hno)%existsb_exists.
  apply bool_decide_eq_true in Hno. apply Hno, HU.
  by apply list_elem_of_In.
Qed.

Lemma NoDup_sorted_elements U : NoDup (sorted le (elements U)).
Proof.
  apply (StronglySorted_strict_NoDup le), (sorted_elements_strict le).
Qed.

Lemma unrank_multipermutation_in_range U (k : nat) (index : Z) :
  0 ≤ index < pow (Z.of_nat (size U)) k →
  ∃ ps,
    unrank_multipermutation le U k index
    = Ret (Some (mkMultipermutation (sorted le (elements U)) ps)) ∧
    length ps = k ∧ (∀ x, x ∈ ps → x ∈ U) ∧
    Multipermutation_rank (mkMultipermutation (sorted le (elements U)) ps)
    = Ret index.
Proof.
  intros Hindex. unfold unrank_multipermutation. cbv zeta.
  rewrite decide_False by lia.
  destruct (unrank_multipermutation_loops (sorted le (elements U)) k
              (NoDup_sorted_elements U) k 0%nat index [] 0 eq_refl)
    as (ps & index' & Houter & Hlen & Hsub & Hrank).
  { by rewrite (size_sorted_elements le). }
  assert (HU : ∀ x, x ∈ ps → x ∈ U).
  { intros x Hx%Hsub. by apply elem_of_elements, (elem_of_sorted le). }
  exists ps. rewrite Houter. cbn [mbind result_bind app].
  rewrite Multipermutation_init_ok by done. cbn [mbind result_bind].
  split; [done|]. split; [done|]. split; [done|].
  unfold Multipermutation_rank, enumerate.
  cbn [_permutation mp_universal_set]. rewrite Hlen. by rewrite Hrank.
Qed.

Lemma rank_multipermutation_in_range U ps :
  (∀ x, x ∈ ps → x ∈ U) →
  ∃ r,
    Multipermutation_rank (mkMultipermutation (sorted le (elements U)) ps)
    = Ret r ∧
    0 ≤ r < pow (Z.of_nat (size U)) (length ps) ∧
    unrank_multipermutation le U (length ps) r
    = Ret (Some (mkMultipermutation (sorted le (elements U)) ps)).
Proof.
  intros HU.
  destruct (rank_multipermutation_loops (sorted le (elements U)) (length ps)
              (NoDup_sorted_elements U) ps 0%nat [] 0 eq_refl)
    as (v & index' & Hv & Hrank & Hunrank).
  { intros x Hx. by apply (elem_of_sorted le), elem_of_elements, HU. }
  rewrite (size_sorted_elements le) in Hv.
  exists v. split; [|split; [done|]].
  - unfold Multipermutation_rank, enumerate.
    cbn [_permutation mp_universal_set]. by rewrite Hrank.
  - unfold unrank_multipermutation. cbv zeta.
    rewrite decide_False by lia. rewrite Hunrank.
    cbn [mbind result_bind app].
    by rewrite Multipermutation_init_ok.
Qed.

(** Property X17:
    For an index from [0] up to [pow(|U|, k)], [unrank_multipermutation]
    returns [k] items of [U], and [Multipermutation.rank] gives the index
    back. *)
Theorem X17_rank_of_unranked_multipermutation U (k : nat) (index : Z) :
  0 ≤ index < pow (Z.of_nat (size U)) k →
  ∃ o,
    unrank_multipermutation le U k index = Ret (Some o) ∧
    length (_permutation o) = k ∧
    (∀ x, x ∈ _permutation o → x ∈ U) ∧
    Multipermutation_rank o = Ret index.
Proof.
  intros Hindex.
  destruct (unrank_multipermutation_in_range U k index Hindex)
    as (ps & ? & ? & ? & ?).
  by eexists.
Qed.

(** Property X18:
    The rank of a multi-permutation of [U] is below [pow(|U|, k)], and
    unranking it gives the multi-permutation back. *)
Theorem X18_unrank_of_rank_multipermutation U ps :
  (∀ x, x ∈ ps → x ∈ U) →
  ∃ o r,
    Multipermutation_init le U ps = Ret o ∧
    Multipermutation_rank o = Ret r ∧
    0 ≤ r < pow (Z.of_nat (size U)) (length ps) ∧
    unrank_multipermutation le U (length ps) r = Ret (Some o).
Proof.
  intros HU.
  destruct (rank_multipermutation_in_range U ps HU) as (r & ? & ? & ?).
  exists (mkMultipermutation (sorted le (elements U)) ps), r.
  by rewrite Multipermutation_init_ok.
Qed.

(** Property X19:
    for an index that is not negative, [unrank_multipermutation] returns
    [None] exactly from the count [pow(|U|, k)] on. *)
Theorem X19_unrank_multipermutation_none U (k : nat) (index : Z) :
  0 ≤ index →
  unrank_multipermutation le U k index = Ret None
  ↔ pow (Z.of_nat (size U)) k ≤ index.
Proof.
  intros Hindex. split.
  - intros Hnone.
    destruct (decide (index < pow (Z.of_nat (size U)) k)) as [Hlt|]; [|lia].
    destruct (unrank_multipermutation_in_range U k index ltac:(lia))
      as (ps & Hps & _).
    by rewrite Hps in Hnone.
  - intros Hge. unfold unrank_multipermutation. cbv zeta.
    by rewrite decide_True by lia.
Qed.

(** Property X20:
    [Multipermutation.successor]: the successor of a multi-permutation of
    rank [r] is the one of rank [r + 1] over the same universal set, and
    [None] for the last one. *)
Theorem X20_multipermutation_successor U ps o :
  Multipermutation_init le U ps = Ret o →
  ∃ r,
    Multipermutation_rank o = Ret r ∧
    (r + 1 < pow (Z.of_nat (size U)) (length ps) →
     ∃ o', Multipermutation_successor le o = Ret (Some o') ∧
           mp_universal_set o' = mp_universal_set o ∧
           length (_permutation o') = length ps ∧
           Multipermutation_rank o' = Ret (r + 1)) ∧
    (r + 1 = pow (Z.of_nat (size U)) (length ps) →
     Multipermutation_successor le o = Ret None).
Proof.
  intros Ho.
  assert (HU : ∀ x, x ∈ ps → x ∈ U).
  { intros x Hx. unfold Multipermutation_init in Ho. cbv zeta in Ho.
    destruct (existsb _ ps) eqn:Hex; [done|].
    destruct (decide (x ∈ U)) as [|Hno]; [done|].
    apply not_true_iff_false in Hex. destruct Hex.
    apply existsb_exists. exists x. split; [by apply list_elem_of_In|].
    by apply bool_decide_eq_true. }
  rewrite Multipermutation_init_ok in Ho by done. simplify_eq.
  destruct (rank_multipermutation_in_range U ps HU) as (r & Hr & Hbound & _).
  exists r. split; [done|].
  unfold Multipermutation_successor. rewrite Hr.
  cbn [mbind result_bind mp_universal_set _permutation].
  rewrite (list_to_set_sorted_elements le). split.
  - intros Hnext.
    destruct (unrank_multipermutation_in_range U (length ps) (r + 1)
                ltac:(lia)) as (ps' & -> & Hlen & _ & Hrank).
    by eexists.
  - intros Hlast. unfold unrank_multipermutation. cbv zeta.
    by rewrite decide_True by lia.
Qed.

End multipermutation_facts.

Lemma X17_witness :
  ∃ o,
    unrank_multipermutation String.le {["A"; "B"; "C"]} 2 5 = Ret (Some o) ∧
    length (_permutation o) = 2%nat ∧
    (∀ x, x ∈ _permutation o → x ∈ ({["A"; "B"; "C"]} : gset string)) ∧
    Multipermutation_rank o = Ret 5.
Proof.
  apply (X17_rank_of_unranked_multipermutation String.le {["A"; "B"; "C"]} 2 5).
  by_computation.
Defined.

Lemma X18_witness :
  ∃ o r,
    Multipermutation_init String.le {["A"; "B"; "C"]} ["C"; "C"; "A"] = Ret o ∧
    Multipermutation_rank o = Ret r ∧
    0 ≤ r < pow (Z.of_nat (size ({["A"; "B"; "C"]} : gset string)))
                (length ["C"; "C"; "A"]) ∧
    unrank_multipermutation String.le {["A"; "B"; "C"]}
      (length ["C"; "C"; "A"]) r = Ret (Some o).
Proof.
  apply (X18_unrank_of_rank_multipermutation String.le {["A"; "B"; "C"]}
           ["C"; "C"; "A"]).
  apply Forall_forall. apply (bool_decide_unpack _). by_computation.
Defined.

Lemma X19_witness :
  unrank_multipermutation String.le {["A"; "B"; "C"]} 2 9 = Ret None
  ↔ pow (Z.of_nat (size ({["A"; "B"; "C"]} : gset string))) 2 ≤ 9.
Proof.
  apply (X19_unrank_multipermutation_none String.le {["A"; "B"; "C"]} 2 9).
  by_computation.
Defined.

Lemma X20_witness :
  ∃ r,
    Multipermutation_rank (mkMultipermutation ["A"; "B"; "C"] ["A"; "C"])
    = Ret r ∧
    (r + 1 < pow (Z.of_nat (size ({["A"; "B"; "C"]} : gset string)))
                 (length ["A"; "C"]) →
     ∃ o', Multipermutation_successor String.le
             (mkMultipermutation ["A"; "B"; "C"] ["A"; "C"]) = Ret (Some o') ∧
           mp_universal_set o'
           = mp_universal_set (mkMultipermutation ["A"; "B"; "C"] ["A"; "C"]) ∧
           length (_permutation o') = length ["A"; "C"] ∧
           Multipermutation_rank o' = Ret (r + 1)) ∧
    (r + 1 = pow (Z.of_nat (size ({["A"; "B"; "C"]} : gset string)))
                 (length ["A"; "C"]) →
     Multipermutation_successor String.le
       (mkMultipermutation ["A"; "B"; "C"] ["A"; "C"]) = Ret None).
Proof.
  apply (X20_multipermutation_successor String.le {["A"; "B"; "C"]}
           ["A"; "C"]).
  by_computation.
Defined.

(** ** Integer compositions: the codec *)

Lemma comb_pos_inv n k : 0 < comb n k → (k ≤ n)%nat.
Proof.
  intros Hpos. destruct (decide (k ≤ n)%nat) as [|Hgt]; [done|].
  rewrite comb_gt in Hpos by lia. lia.
Qed.

Lemma sum_snoc (l : list Z) (x : Z) : sum (l ++ [x]) = sum l + x.
Proof. rewrite sum_app. cbn. lia. Qed.

Lemma unrank_sized_integer_composition_body_eq (n k i j : Z) (q : nat)
    comp offset index :
  k - i - 2 = Z.of_nat q → 0 ≤ n - sum comp - j - 1 →
  unrank_sized_integer_composition_body n k i j (offset, index, comp) =
    let c := comb (Z.to_nat (n - sum comp - j - 1)) q in
    if decide (offset + c > index)
    then Ret (Break (offset, index - offset, comp ++ [j]))
    else Ret (Next (offset + c, index, comp)).
Proof.
  intros Hk Hj. unfold unrank_sized_integer_composition_body.
  rewrite Hk.
  replace (n - (sum comp + j) - 1)
    with (Z.of_nat (Z.to_nat (n - sum comp - j - 1))) by lia.
  rewrite math_comb_nat. cbn [mbind result_bind]. cbv zeta.
  by case_decide.
Qed.

(** The inner loop of [unrank_sized_integer_composition]: with [comp] the
    parts chosen so far and [q + 2] parts still to choose, the candidates
    [j, j + 1, ..., n - 2] hold the part whose block of indices contains
    [index], as long as [index] lies below the blocks of the candidates up
    to [n - 2].  The loop of [SizedIntegerComposition.rank] adds up the
    blocks in front of that part. *)
Lemma unrank_sized_integer_composition_inner (n k i : Z) (q : nat)
    comp index :
  k - i - 2 = Z.of_nat q →
  ∀ (m : nat) (j offset : Z),
    1 ≤ j → j + Z.of_nat m = n - 1 →
    offset ≤ index
      < offset + comb (Z.to_nat (n - sum comp - j)) (S q)
               - comb (Z.to_nat (n - sum comp - (n - 1))) (S q) →
    ∃ j' offset',
      j ≤ j' ∧ Z.of_nat (S q) ≤ n - sum comp - j' ∧
      for_in_break (seqZ j (Z.of_nat m))
        (unrank_sized_integer_composition_body n k i) (offset, index, comp)
      = Ret (offset', index - offset', comp ++ [j']) ∧
      0 ≤ index - offset' < comb (Z.to_nat (n - sum comp - j' - 1)) q ∧
      ∀ acc : Z,
        for_in (seqZ j (j' - j))
          (fun j acc =>
             c ← math_comb (n - (sum comp + j) - 1) (k - i - 2);
             Ret (acc + c))
          acc
        = Ret (acc + (offset' - offset)).
Proof.
  intros Hk. induction m as [|m IH]; intros j offset Hj Hm Hindex.
  - replace (n - sum comp - j) with (n - sum comp - (n - 1)) in Hindex
      by lia.
    lia.
  - pose proof (comb_nonneg (Z.to_nat (n - sum comp - (n - 1))) (S q)) as HE.
    assert (HR : 1 ≤ n - sum comp - j).
    { destruct (decide (1 ≤ n - sum comp - j)) as [|Hno]; [done|].
      replace (Z.to_nat (n - sum comp - j)) with 0%nat in Hindex by lia.
      cbn [comb] in Hindex. lia. }
    assert (Hq : Z.of_nat (S q) ≤ n - sum comp - j).
    { assert (0 < comb (Z.to_nat (n - sum comp - j)) (S q)) as Hpos by lia.
      apply comb_pos_inv in Hpos. lia. }
    replace (Z.to_nat (n - sum comp - j))
      with (S (Z.to_nat (n - sum comp - j - 1))) in Hindex by lia.
    rewrite comb_S in Hindex.
    set (c := comb (Z.to_nat (n - sum comp - j - 1)) q) in *.
    assert (Hc : math_comb (n - (sum comp + j) - 1) (k - i - 2) = Ret c).
    { rewrite Hk.
      replace (n - (sum comp + j) - 1)
        with (Z.of_nat (Z.to_nat (n - sum comp - j - 1))) by lia.
      by rewrite math_comb_nat. }
    rewrite seqZ_cons by lia.
    replace (Z.pred (Z.of_nat (S m))) with (Z.of_nat m) by lia.
    cbn [for_in_break].
    rewrite (unrank_sized_integer_composition_body_eq n k i j q)
      by (done || lia).
    cbv zeta. fold c. case_decide as Hgt; cbn [mbind result_bind].
    + exists j, offset. split; [lia|]. split; [done|]. split; [done|].
      split; [lia|]. intros acc. rewrite Z.sub_diag. cbn. f_equal. lia.
    + destruct (IH (Z.succ j) (offset + c)) as
        (j' & offset' & Hjj' & HR' & Hloop & Hidx & Hrank); [lia|lia| |].
      { replace (n - sum comp - Z.succ j) with (n - sum comp - j - 1)
          by lia.
        lia. }
      exists j', offset'. split; [lia|]. split; [done|]. split; [done|].
      split; [done|]. intros acc. rewrite (seqZ_cons j) by lia.
      replace (Z.pred (j' - j)) with (j' - Z.succ j) by lia.
      cbn [for_in]. rewrite Hc. cbn [mbind result_bind].
      rewrite Hrank. f_equal. lia.
Qed.

(** The outer loops of [unrank_sized_integer_composition] and of
    [SizedIntegerComposition.rank] side by side, from the state
    [(index, comp)] with [m] more parts to choose before the last one. *)
Lemma unrank_sized_integer_composition_outer (n k : Z) :
  ∀ (m : nat) (i : Z) comp index,
    k - 1 = i + Z.of_nat m → i = Z.of_nat (length comp) →
    0 ≤ sum comp → 1 ≤ n - sum comp →
    0 ≤ index < comb (Z.to_nat (n - sum comp - 1)) m →
    (m ≠ 0%nat →
     index < comb (Z.to_nat (n - sum comp - 1)) m
             - comb (Z.to_nat (n - sum comp - (n - 1))) m) →
    ∃ ps index',
      for_in (seqZ i (Z.of_nat m))
        (fun i '(index, composition) =>
           '(_, index, composition) ←
             for_in_break (seqZ 1 (n - 1 - 1))
               (unrank_sized_integer_composition_body n k i)
               (0, index, composition);
           Ret (index, composition))
        (index, comp)
      = Ret (index', comp ++ ps) ∧
      length ps = m ∧ Forall (Z.le 1) ps ∧ 1 ≤ n - sum (comp ++ ps) ∧
      ∀ (c : list Z) (last acc : Z),
        c = comp ++ ps ++ [last] →
        for_in (seqZ i (Z.of_nat m))
          (fun i index =>
             bound ← getitem c i;
             s ← for_in (seqZ 1 (bound - 1))
                   (fun j acc =>
                      cc ← math_comb
                             (n - (sum (take (Z.to_nat i) c) + j) - 1)
                             (k - i - 2);
                      Ret (acc + cc))
                   0;
             Ret (index + s))
          acc
        = Ret (acc + index).
Proof.
  induction m as [|m IH]; intros i comp index Hk Hi Hsum HR Hindex Hlast.
  - exists [], index. cbn [Z.of_nat seqZ for_in]. rewrite app_nil_r.
    rewrite comb_0_r in Hindex.
    split; [done|]. split; [done|]. split; [constructor|]. split; [done|].
    intros c last acc _. cbn. f_equal. lia.
  - specialize (Hlast ltac:(done)).
    pose proof (comb_nonneg (Z.to_nat (n - sum comp - (n - 1))) (S m)) as HE.
    assert (Hn : (S m ≤ Z.to_nat (n - sum comp - 1))%nat).
    { apply comb_pos_inv. lia. }
    rewrite seqZ_cons by lia.
    replace (Z.pred (Z.of_nat (S m))) with (Z.of_nat m) by lia.
    cbn [for_in].
    destruct (unrank_sized_integer_composition_inner n k i m comp index
                ltac:(lia) (Z.to_nat (n - 2)) 1 0 ltac:(lia) ltac:(lia))
      as (j' & offset' & Hj' & HR' & Hloop & Hidx & Hinner).
    { lia. }
    replace (Z.of_nat (Z.to_nat (n - 2))) with (n - 1 - 1) in Hloop by lia.
    rewrite Hloop. cbn [mbind result_bind].
    destruct (IH (Z.succ i) (comp ++ [j']) (index - offset'))
      as (ps & index' & Houter & Hlen & Hpos & Hrest & Hrank).
    { lia. }
    { rewrite length_app. cbn [length]. lia. }
    { rewrite sum_snoc. lia. }
    { rewrite sum_snoc. lia. }
    { rewrite sum_snoc.
      replace (n - (sum comp + j') - 1) with (n - sum comp - j' - 1) by lia.
      done. }
    { intros Hm. rewrite sum_snoc.
      replace (Z.to_nat (n - (sum comp + j') - (n - 1))) with 0%nat by lia.
      replace (n - (sum comp + j') - 1) with (n - sum comp - j' - 1) by lia.
      destruct m as [|m]; [done|]. cbn [comb]. lia. }
    exists (j' :: ps), index'.
    replace (comp ++ j' :: ps) with ((comp ++ [j']) ++ ps)
      by (by rewrite <- (assoc_L (++))).
    split; [done|]. split; [by rewrite <- Hlen|].
    split; [by constructor; [lia|]|]. split; [done|].
    intros c last acc Hc.
    assert (Hget : getitem c i = Ret j').
    { rewrite Hi. apply getitem_lookup. subst c.
      by apply list_lookup_middle. }
    assert (Htake : take (Z.to_nat i) c = comp).
    { rewrite Hi, Nat2Z.id. subst c. apply take_app_length. }
    cbn [for_in]. rewrite Hget. cbn [mbind result_bind].
    rewrite Htake.
    rewrite (Hinner 0). cbn [mbind result_bind].
    rewrite (Hrank c last (acc + (0 + (offset' - 0)))).
    + f_equal. lia.
    + subst c. by rewrite <- (assoc_L (++)).
Qed.

(** What the loops amount to for the codec as a whole: every index of the
    range is unranked to [k] positive parts of sum [n] and ranked back,
    except for the last index when [k = 2]. *)
Lemma unrank_sized_integer_composition_in_range (n k index : Z) :
  1 ≤ n → 1 ≤ k →
  0 ≤ index < comb (Z.to_nat (n - 1)) (Z.to_nat (k - 1))
              - (if decide (k = 2) then 1 else 0) →
  ∃ c,
    unrank_sized_integer_composition n k index = Ret (Some c) ∧
    Z.of_nat (length (_composition c)) = k ∧
    Forall (Z.le 1) (_composition c) ∧
    sum (_composition c) = n ∧ _sum c = n ∧
    SizedIntegerComposition_rank c = Ret index.
Proof.
  intros Hn Hk Hindex.
  set (m := Z.to_nat (k - 1)) in *.
  assert (Htotal : math_comb (n - 1) (k - 1)
                   = Ret (comb (Z.to_nat (n - 1)) m)).
  { unfold math_comb. by rewrite decide_True by lia. }
  assert (HE : 0 ≤ (if decide (k = 2) then 1 else 0)) by (case_decide; lia).
  destruct (unrank_sized_integer_composition_outer n k m 0 [] index)
    as (ps & index' & Houter & Hlen & Hpos & Hrest & Hrank).
  { lia. }
  { done. }
  { done. }
  { cbn. lia. }
  { cbn [sum foldr]. rewrite Z.sub_0_r. lia. }
  { intros Hm. cbn [sum foldr]. rewrite Z.sub_0_r.
    replace (Z.to_nat (n - (n - 1))) with 1%nat by lia.
    destruct (decide (k = 2)) as [->|Hk2].
    - subst m. change (Z.to_nat (2 - 1)) with 1%nat in *.
      rewrite (comb_1_r 1). lia.
    - rewrite (comb_gt 1 m) by lia. lia. }
  cbn [app] in Houter, Hrest, Hrank.
  assert (Hsum : sum (ps ++ [n - sum ps]) = n).
  { rewrite sum_snoc. lia. }
  assert (Hlength : Z.of_nat (length (ps ++ [n - sum ps])) = k).
  { rewrite length_app. cbn [length]. lia. }
  exists (SizedIntegerComposition_init (ps ++ [n - sum ps])).
  split; [|split; [done|split; [|split; [done|split; [done|]]]]].
  - unfold unrank_sized_integer_composition. rewrite Htotal.
    cbn [mbind result_bind]. rewrite decide_False by lia.
    unfold range, range_from. replace (k - 1) with (Z.of_nat m) by lia.
    by rewrite Houter.
  - cbn [SizedIntegerComposition_init _composition].
    apply Forall_app. split; [done|]. constructor; [lia|constructor].
  - unfold SizedIntegerComposition_rank, SizedIntegerComposition_init.
    cbn [_composition _sum]. cbv zeta. rewrite Hsum, Hlength.
    unfold range, range_from. replace (k - 1) with (Z.of_nat m) by lia.
    by apply (Hrank (ps ++ [n - sum ps]) (n - sum ps) 0).
Qed.

(** Property X21:
    For [k ≥ 1] parts and an index of the range, the last index left aside
    when [k = 2], [unrank_sized_integer_composition] returns [k] positive
    parts that sum to [n]. *)
Theorem X21_unrank_composition_valid (n k index : Z) :
  1 ≤ n → 1 ≤ k →
  0 ≤ index < comb (Z.to_nat (n - 1)) (Z.to_nat (k - 1))
              - (if decide (k = 2) then 1 else 0) →
  ∃ c,
    unrank_sized_integer_composition n k index = Ret (Some c) ∧
    Z.of_nat (length (_composition c)) = k ∧
    Forall (Z.le 1) (_composition c) ∧
    sum (_composition c) = n.
Proof.
  intros Hn Hk Hindex.
  destruct (unrank_sized_integer_composition_in_range n k index Hn Hk Hindex)
    as (c & ? & ? & ? & ? & _).
  by exists c.
Qed.

(** Property X22:
    [SizedIntegerComposition.rank] gives the index back from which the
    composition was unranked. *)
Theorem X22_rank_of_unranked_composition (n k index : Z) :
  1 ≤ n → 1 ≤ k →
  0 ≤ index < comb (Z.to_nat (n - 1)) (Z.to_nat (k - 1))
              - (if decide (k = 2) then 1 else 0) →
  ∃ c,
    unrank_sized_integer_composition n k index = Ret (Some c) ∧
    SizedIntegerComposition_rank c = Ret index.
Proof.
  intros Hn Hk Hindex.
  destruct (unrank_sized_integer_composition_in_range n k index Hn Hk Hindex)
    as (c & ? & _ & _ & _ & _ & ?).
  by exists c.
Qed.

(** Property X23:
    [SizedIntegerComposition.successor] of the composition unranked from
    [index] is what [unrank_sized_integer_composition] returns for
    [index + 1]: the next composition, or [None] after the last one. *)
Theorem X23_composition_successor (n k index : Z) :
  1 ≤ n → 1 ≤ k →
  0 ≤ index < comb (Z.to_nat (n - 1)) (Z.to_nat (k - 1))
              - (if decide (k = 2) then 1 else 0) →
  ∃ c,
    unrank_sized_integer_composition n k index = Ret (Some c) ∧
    SizedIntegerComposition_successor c
    = unrank_sized_integer_composition n k (index + 1).
Proof.
  intros Hn Hk Hindex.
  destruct (unrank_sized_integer_composition_in_range n k index Hn Hk Hindex)
    as (c & Hc & Hlen & _ & _ & Hsum & Hrank).
  exists c. split; [done|].
  unfold SizedIntegerComposition_successor.
  by rewrite Hrank, Hsum, Hlen.
Qed.

(** Property X25:
    With two parts the last index of the range, [n - 2], is unranked to the
    single part [n]. *)
Theorem X25_unrank_composition_two_parts_last (n : Z) :
  2 ≤ n →
  math_comb (n - 1) (2 - 1) = Ret (n - 1) ∧
  unrank_sized_integer_composition n 2 (n - 2)
    = Ret (Some (mkSizedIntegerComposition [n] n)).
Proof. apply unrank_sized_integer_composition_two_parts_last. Qed.

(** Property X26:
    for [n ≥ 1], [k ≥ 1] and an index that is not negative,
    [unrank_sized_integer_composition] returns [None] exactly from the
    count [comb(n - 1, k - 1)] on. *)
Theorem X26_unrank_composition_none (n k index : Z) :
  1 ≤ n → 1 ≤ k → 0 ≤ index →
  unrank_sized_integer_composition n k index = Ret None
  ↔ comb (Z.to_nat (n - 1)) (Z.to_nat (k - 1)) ≤ index.
Proof.
  intros Hn Hk Hindex. split.
  - intros Hnone.
    destruct (decide (index < comb (Z.to_nat (n - 1)) (Z.to_nat (k - 1))))
      as [Hlt|]; [|lia].
    destruct (decide (k = 2 ∧ index = n - 2)) as [[-> ->]|Hother].
    + change (Z.to_nat (2 - 1)) with 1%nat in Hlt.
      rewrite comb_1_r in Hlt.
      destruct (unrank_sized_integer_composition_two_parts_last n
                  ltac:(lia)) as [_ Hlast].
      by rewrite Hlast in Hnone.
    + destruct (unrank_sized_integer_composition_in_range n k index Hn Hk)
        as (c & Hc & _).
      { case_decide as Hk2; [|lia]. subst k.
        change (Z.to_nat (2 - 1)) with 1%nat in *.
        rewrite comb_1_r in *. lia. }
      by rewrite Hc in Hnone.
  - by apply unrank_sized_integer_composition_out_of_range.
Qed.

(** Property X27:
    Whatever [unrank_sized_integer_composition] returns sums to [n], for
    any index and any size. *)
Theorem X27_unrank_composition_sum (n k index : Z) c :
  unrank_sized_integer_composition n k index = Ret (Some c) →
  sum (_composition c) = n ∧ _sum c = n.
Proof. apply unrank_sized_integer_composition_sum. Qed.

Lemma X21_witness :
  ∃ c,
    unrank_sized_integer_composition 6 3 7 = Ret (Some c) ∧
    Z.of_nat (length (_composition c)) = 3 ∧
    Forall (Z.le 1) (_composition c) ∧
    sum (_composition c) = 6.
Proof. apply (X21_unrank_composition_valid 6 3 7); by_computation. Defined.

Lemma X22_witness :
  ∃ c,
    unrank_sized_integer_composition 6 3 7 = Ret (Some c) ∧
    SizedIntegerComposition_rank c = Ret 7.
Proof. apply (X22_rank_of_unranked_composition 6 3 7); by_computation. Defined.

Lemma X23_witness :
  ∃ c,
    unrank_sized_integer_composition 6 3 7 = Ret (Some c) ∧
    SizedIntegerComposition_successor c
    = unrank_sized_integer_composition 6 3 (7 + 1).
Proof. apply (X23_composition_successor 6 3 7); by_computation. Defined.

Lemma X25_witness :
  math_comb (5 - 1) (2 - 1) = Ret (5 - 1) ∧
  unrank_sized_integer_composition 5 2 (5 - 2)
    = Ret (Some (mkSizedIntegerComposition [5] 5)).
Proof. apply (X25_unrank_composition_two_parts_last 5); by_computation. Defined.

Lemma X26_witness :
  unrank_sized_integer_composition 6 3 10 = Ret None
  ↔ comb (Z.to_nat (6 - 1)) (Z.to_nat (3 - 1)) ≤ 10.
Proof. apply (X26_unrank_composition_none 6 3 10); by_computation. Defined.

Lemma X27_witness :
  sum (_composition (mkSizedIntegerComposition [3; 1; 2] 6)) = 6 ∧
  _sum (mkSizedIntegerComposition [3; 1; 2] 6) = 6.
Proof.
  apply (X27_unrank_composition_sum 6 3 7
           (mkSizedIntegerComposition [3; 1; 2] 6)).
  by_computation.
Defined.

(** ** Multi-combinations: the guard *)

Lemma getitem_in_range {X : Type} (l : list X) (i : Z) :
  - Z.of_nat (length l) ≤ i < Z.of_nat (length l) →
  ∃ x, getitem l i = Ret x ∧ x ∈ l.
Proof.
  intros Hi. unfold getitem. cbv zeta.
  destruct (decide (i < 0)) as [Hneg|Hpos].
  - rewrite decide_False by lia.
    destruct (lookup_lt_is_Some_2 l (Z.to_nat (Z.of_nat (length l) + i))
                ltac:(lia)) as [x Hx].
    rewrite Hx. exists x. split; [done|]. by eapply list_elem_of_lookup_2.
  - rewrite decide_False by lia.
    destruct (lookup_lt_is_Some_2 l (Z.to_nat i) ltac:(lia)) as [x Hx].
    rewrite Hx. exists x. split; [done|]. by eapply list_elem_of_lookup_2.
Qed.

Section multicombination_guard.
Context `{Countable A} (le : relation A).
Context `{!RelDecision le, !PartialOrder le, !Total le}.

(** The inner loop of [unrank_multicombination] runs through without an
    error and appends items of the universal set only. *)
Lemma unrank_multicombination_inner (sl : list A) (k i rank : Z) :
  0 ≤ i < k →
  ∀ (indices : list nat) (mc : list A),
    Forall (λ index, index < length sl)%nat indices →
    Forall (λ x, x ∈ sl) mc →
    ∃ mc',
      for_in indices
        (fun index multicombination =>
           c ← math_comb ((Z.of_nat (length sl) + k - 1) - 1) (k - (i + 1));
           let index_rank := Z.of_nat index * c in
           if decide (index_rank > rank) then
             item ← getitem sl (Z.of_nat index - 1);
             Ret (multicombination ++ [item])
           else Ret multicombination)
        mc
      = Ret mc' ∧
      Forall (λ x, x ∈ sl) mc'.
Proof.
  intros Hi indices mc Hidx Hmc.
  destruct (decide (length sl = 0%nat)) as [Hnil|Hlen].
  { destruct indices as [|index indices]; [by exists mc|].
    apply Forall_cons in Hidx as [Hindex _]. lia. }
  assert (∃ c, math_comb ((Z.of_nat (length sl) + k - 1) - 1)
                         (k - (i + 1)) = Ret c) as [c ->].
  { unfold math_comb. rewrite decide_True by lia. by eexists. }
  cbn [mbind result_bind]. cbv zeta.
  revert mc Hidx Hmc.
  induction indices as [|index indices IH]; intros mc Hidx Hmc.
  - by exists mc.
  - apply Forall_cons in Hidx as [Hindex Hidx]. cbn [for_in].
    case_decide.
    + destruct (getitem_in_range sl (Z.of_nat index - 1) ltac:(lia))
        as (x & -> & Hx).
      cbn [mbind result_bind]. apply IH; [done|].
      apply Forall_app. split; [done|]. by constructor.
    + cbn [mbind result_bind]. by apply IH.
Qed.

Lemma unrank_multicombination_outer (sl : list A) (k rank : Z) :
  ∀ (rounds : list Z) (mc : list A),
    Forall (λ i, 0 ≤ i < k) rounds →
    Forall (λ x, x ∈ sl) mc →
    ∃ mc',
      for_in rounds
        (fun i multicombination =>
           for_in (seq 0 (length sl))
             (fun index multicombination =>
                c ← math_comb ((Z.of_nat (length sl) + k - 1) - 1)
                              (k - (i + 1));
                let index_rank := Z.of_nat index * c in
                if decide (index_rank > rank) then
                  item ← getitem sl (Z.of_nat index - 1);
                  Ret (multicombination ++ [item])
                else Ret multicombination)
             multicombination)
        mc
      = Ret mc' ∧
      Forall (λ x, x ∈ sl) mc'.
Proof.
  induction rounds as [|i rounds IH]; intros mc His Hmc.
  - by exists mc.
  - apply Forall_cons in His as [Hi His]. cbn [for_in].
    destruct (unrank_multicombination_inner sl k i rank Hi
                (seq 0 (length sl)) mc) as (mc1 & Hloop & Hmc1); [|done|].
    { apply Forall_forall. intros j Hj%elem_of_seq. lia. }
    cbv zeta in Hloop. cbv zeta. rewrite Hloop.
    cbn [mbind result_bind]. by apply IH.
Qed.

(** Property X28:
    whenever the count [comb(|U| + k - 1, k)] is defined,
    [unrank_multicombination] raises no error: it returns [None] for the
    ranks above the count, and for every other rank, the count itself
    included, an object made of items of [U]. *)
Theorem X28_unrank_multicombination_guard (U : gset A) (k rank total : Z) :
  math_comb (Z.of_nat (size U) + k - 1) k = Ret total →
  (total < rank → unrank_multicombination le U k rank = Ret None) ∧
  (rank ≤ total →
   ∃ o, unrank_multicombination le U k rank = Ret (Some o) ∧
        ∀ x, x ∈ _multicombination o → x ∈ U).
Proof.
  intros Htotal. unfold unrank_multicombination.
  rewrite Htotal. cbn [mbind result_bind]. split.
  - intros Hgt. by rewrite decide_True by lia.
  - intros Hle. rewrite decide_False by lia. cbv zeta.
    destruct (unrank_multicombination_outer (sorted le (elements U)) k rank
                (range k) []) as (mc & Hloop & Hmc); [|constructor|].
    { apply Forall_forall. intros i Hi%elem_of_seqZ. lia. }
    cbv zeta in Hloop. rewrite Hloop. cbn [mbind result_bind].
    unfold MultiCombination_init. cbv zeta.
    rewrite (list_to_set_sorted_elements le).
    assert (HU : ∀ x, x ∈ mc → x ∈ U).
    { intros x Hx. eapply Forall_forall in Hmc; [|done].
      by apply elem_of_elements, (elem_of_sorted le). }
    replace (existsb _ mc) with false.
    + cbn [mbind result_bind]. by eexists.
    + symmetry. apply not_true_iff_false.
      intros (x & Hx & Hno)%existsb_exists.
      apply bool_decide_eq_true in Hno. apply Hno, HU.
      by apply list_elem_of_In.
Qed.

End multicombination_guard.

Lemma X28_witness :
  (2 < 2 → unrank_multicombination String.le {["A"; "B"]} 1 2 = Ret None) ∧
  (2 ≤ 2 →
   ∃ o, unrank_multicombination String.le {["A"; "B"]} 1 2 = Ret (Some o) ∧
        ∀ x, x ∈ _multicombination o → x ∈ ({["A"; "B"]} : gset string)).
Proof.
  apply (X28_unrank_multicombination_guard String.le {["A"; "B"]} 1 2 2).
  by_computation.
Defined.

(** ** The recursion of [part] *)

(** Property X29:
    [part] ends on every triple of integers: the calls nest at most
    [part_depth n k l] deep, and fuel beyond that gives the same result. *)
Theorem X29_part_terminates (n k l : Z) (fuel : nat) :
  Z.max 0 (part_depth n k l) < Z.of_nat fuel →
  part_fuel fuel n k l = Some (part n k l).
Proof.
  intros Hfuel. destruct fuel as [|fuel]; [lia|].
  apply part_fuel_part. lia.
Qed.

Lemma X29_witness :
  part_fuel 10 7 3 1 = Some (part 7 3 1).
Proof. apply (X29_part_terminates 7 3 1 10). by_computation. Defined.

(** Property X30:
    for a least part [l ≥ 1], [part(n, k, l)] is the number of the
    partitions of [n] into [k] parts of size [l] or more wherever [n < k],
    [k ≤ 0] or [n ≥ k * l], the pair [n = k = 0] apart. *)
Theorem X30_part_counts_partitions (n k l : Z) :
  1 ≤ l → ¬ (n = 0 ∧ k = 0) → n < k ∨ k ≤ 0 ∨ k * l ≤ n →
  part n k l = count_partitions n k l.
Proof.
  intros Hl Hzero Hdom. destruct (decide (k ≤ 0)) as [Hk|Hk].
  - rewrite part_below by (by right). unfold count_partitions.
    case_decide as Hk0; [|done]. assert (k = 0) as -> by lia.
    change (Z.to_nat 0) with 0%nat. cbn [partitions].
    case_decide; [lia|done].
  - apply (part_count_partitions (Z.to_nat (n + 1))); [lia..|].
    destruct Hdom as [?|[?|?]]; [by right|lia|by left].
Qed.

Lemma X30_witness : part 30 3 5 = count_partitions 30 3 5.
Proof.
  apply (X30_part_counts_partitions 30 3 5); [lia|lia|right; right; lia].
Defined.

(** ** The other iterators *)

Lemma perm_pos n k : (k ≤ n)%nat → 0 < perm n k.
Proof.
  revert n; induction k as [|k IH]; intros [|n] Hk; try (simpl; lia).
  rewrite perm_S. specialize (IH n ltac:(lia)). nia.
Qed.

Section walk_prefix.
Context `{EqDecision A}.

(** The first items of the universal set make the combination of rank 0. *)
Lemma rank_walk_take (u : list A) (m : nat) : rank_walk u (take m u) = 0.
Proof.
  revert m; induction u as [|y u IH]; intros [|m]; cbn; try done.
  by rewrite decide_True.
Qed.

End walk_prefix.

Section permutation_iterator.
Context `{Countable A} (le : relation A).
Context `{!RelDecision le, !PartialOrder le, !Total le}.
Implicit Types (sl ps : list A) (U : gset A).

(** The loop of [rank_permutation] gives the first [m] items of its
    universal set the rank [0]. *)
Lemma rank_permutation_take (K : nat) :
  ∀ (m i : nat) sl acc,
    K = (i + m)%nat → (m ≤ length sl)%nat →
    for_in (zip (seq i m) (take m sl))
      (fun '(i, item) '(universal_set, rank) =>
         index ← list_index universal_set item;
         p ← math_perm (Z.of_nat (length universal_set) - 1)
                       (Z.of_nat K - 1 - Z.of_nat i);
         Ret (delete index universal_set, rank + Z.of_nat index * p))
      (sl, acc)
    = Ret (drop m sl, acc).
Proof.
  induction m as [|m IH]; intros i sl acc HK Hm; [done|].
  destruct sl as [|x sl]; [cbn in Hm; lia|]. cbn [length] in Hm.
  change (zip (seq i (S m)) (take (S m) (x :: sl)))
    with ((i, x) :: zip (seq (S i) m) (take m sl)).
  cbn [for_in].
  pose proof (list_index_middle [] sl x (not_elem_of_nil _)) as Hidx.
  cbn [app length] in Hidx. rewrite Hidx. cbn [mbind result_bind].
  assert (∃ p, math_perm (Z.of_nat (length (x :: sl)) - 1)
                         (Z.of_nat K - 1 - Z.of_nat i) = Ret p) as [p ->].
  { unfold math_perm. rewrite decide_True by (cbn [length]; lia).
    by eexists. }
  cbn [mbind result_bind delete list_delete drop Z.of_nat Z.mul].
  rewrite Z.add_0_r. apply IH; lia.
Qed.

Lemma unrank_permutation_first U (k : Z) :
  0 ≤ k ≤ Z.of_nat (size U) →
  unrank_permutation le U k 0
  = Ret (Some (mkCombinatoric Permutation U
                 (PyTuple (take (Z.to_nat k) (sorted le (elements U)))))).
Proof.
  intros Hk. set (sl := sorted le (elements U)).
  assert (Hlen : length sl = size U) by apply (size_sorted_elements le).
  set (ps := take (Z.to_nat k) sl).
  assert (Hps : length ps = Z.to_nat k).
  { unfold ps. rewrite length_take. lia. }
  destruct (rank_permutation_loops (A:=A) k (Z.to_nat k) ltac:(lia) ps 0%nat []
              sl 0 ltac:(lia))
    as (v & sl' & index' & Hv & Hrank & Hunrank).
  { apply (NoDup_sorted_elements le). }
  { apply (sublist_NoDup _ sl); [apply (NoDup_sorted_elements le)|].
    apply sublist_take. }
  { intros x Hx. eapply elem_of_sublist; [done|apply sublist_take]. }
  rewrite Hps in Hrank, Hunrank, Hv.
  unfold ps in Hrank at 1.
  rewrite (rank_permutation_take (Z.to_nat k)) in Hrank by lia.
  assert (v = 0) as -> by (simplify_eq; lia).
  rewrite Hlen in Hv.
  unfold unrank_permutation. cbv zeta. fold sl.
  unfold math_perm. rewrite decide_True by lia. rewrite Nat2Z.id.
  cbn [mbind result_bind]. rewrite decide_False by lia.
  unfold range. rewrite <- (Z2Nat.id k) at 1 by lia.
  change 0 with (Z.of_nat 0) at 1. rewrite Hunrank.
  cbn [mbind result_bind app]. unfold Combinatoric_init. cbn [iter].
  replace (existsb _ ps) with false; [done|].
  symmetry. apply not_true_iff_false. intros (x & Hx & Hno)%existsb_exists.
  apply bool_decide_eq_true in Hno. apply Hno.
  apply elem_of_elements, (elem_of_sorted le). fold sl.
  eapply elem_of_sublist; [by apply list_elem_of_In|apply sublist_take].
Qed.

(** [Permutation.rank] of that permutation is the rank [0] of the
    combination of its items. *)
Lemma rank_permutation_first U (m : nat) :
  rank le (mkCombinatoric Permutation U
             (PyTuple (take m (sorted le (elements U))))) = Ret 0.
Proof.
  set (sl := sorted le (elements U)).
  assert (Hsl : StronglySorted (strict le) sl)
    by apply (sorted_elements_strict le).
  assert (Htake : StronglySorted (strict le) (take m sl)).
  { apply (StronglySorted_sublist le _ sl); [apply sublist_take|done]. }
  unfold rank, frozenset. cbn [class_of _universal_set _combinatoric iter].
  rewrite (rank_combination_walk le).
  - fold sl. rewrite (sorted_unique le (take m sl)); [|done|].
    + by rewrite rank_walk_take.
    + apply elements_list_to_set.
      by apply (StronglySorted_strict_NoDup le).
  - apply NoDup_elements.
  - intros x Hx%elem_of_list_to_set.
    apply (elem_of_sorted le). fold sl.
    eapply elem_of_sublist; [done|apply sublist_take].
Qed.

Lemma list_of_PermuationIterator_eq (fuel : nat) :
  ∀ st : option (Combinatoric A),
    list_of_PermuationIterator le fuel (mkPermuationIterator st)
    = list_of_iterator le fuel (mkCombinationIterator st).
Proof.
  induction fuel as [|fuel IH]; intros st; [done|].
  cbn [list_of_PermuationIterator list_of_iterator].
  unfold PermuationIterator_next, next. cbn [_permuation _combination].
  destruct st as [current|]; [|done].
  destruct (successor le current) as [st'|e]; cbn [mbind result_bind];
    [|done].
  by rewrite IH.
Qed.


End permutation_iterator.


(** The iterator of compositions, started on the composition of index [i],
    yields the [cnt] compositions that are left and stops. *)
Lemma list_of_SizedIntegerCompositionIterator_from (n k : Z) :
  1 ≤ n → 1 ≤ k → k ≠ 2 →
  ∀ (cnt : nat) (i : Z) st (fuel : nat),
    0 ≤ i →
    i + Z.of_nat cnt = comb (Z.to_nat (n - 1)) (Z.to_nat (k - 1)) →
    unrank_sized_integer_composition n k i = Ret st →
    (cnt < fuel)%nat →
    ∃ objs,
      list_of_SizedIntegerCompositionIterator fuel
        (mkSizedIntegerCompositionIterator st) = Ret (Some objs) ∧
      length objs = cnt ∧
      ∀ j : nat, (j < cnt)%nat →
        ∃ c, objs !! j = Some c ∧
             SizedIntegerComposition_rank c = Ret (i + Z.of_nat j).
Proof.
  intros Hn Hk Hk2.
  induction cnt as [|cnt IH]; intros i st fuel Hi Hcnt Hst Hfuel.
  - rewrite unrank_sized_integer_composition_out_of_range in Hst by lia.
    simplify_eq. destruct fuel as [|fuel]; [lia|].
    exists []. split; [done|]. split; [done|]. intros j Hj. lia.
  - destruct (unrank_sized_integer_composition_in_range n k i Hn Hk)
      as (c & Hc & Hlen & _ & _ & Hsum & Hrank).
    { rewrite decide_False by done. lia. }
    assert (st = Some c) as -> by congruence.
    destruct fuel as [|fuel]; [lia|].
    cbn [list_of_SizedIntegerCompositionIterator].
    unfold SizedIntegerCompositionIterator_next. cbn [cursor].
    unfold SizedIntegerComposition_successor. rewrite Hrank, Hsum, Hlen.
    cbn [mbind result_bind].
    assert (∃ st', unrank_sized_integer_composition n k (i + 1) = Ret st')
      as [st' Hst'].
    { destruct cnt.
      - eexists. apply unrank_sized_integer_composition_out_of_range; lia.
      - destruct (unrank_sized_integer_composition_in_range n k (i + 1)
                    Hn Hk) as (c' & Hc' & _).
        { rewrite decide_False by done. lia. }
        by eexists. }
    rewrite Hst'. cbn [mbind result_bind].
    destruct (IH (i + 1) st' fuel) as (objs & -> & Hobjs & Hranks);
      [lia|lia|done|lia|].
    cbn [mbind result_bind option_map].
    exists (c :: objs). split; [done|]. split; [by rewrite <- Hobjs|].
    intros [|j] Hj.
    + exists c. split; [done|]. by rewrite Z.add_0_r.
    + destruct (Hranks j ltac:(lia)) as (c' & Hc' & Hrank').
      exists c'. split; [done|]. rewrite Hrank'. f_equal. lia.
Qed.

(** Property X24:
    [SizedIntegerCompositionIterator(n, k, i)], for a size other than [2],
    yields the compositions of index [i], [i + 1], ... up to the last one
    and stops; from the count on it yields nothing. *)
Theorem X24_composition_iterator (n k i : Z) (cnt : nat) :
  1 ≤ n → 1 ≤ k → k ≠ 2 → 0 ≤ i →
  Z.of_nat cnt = Z.max 0 (comb (Z.to_nat (n - 1)) (Z.to_nat (k - 1)) - i) →
  ∃ it,
    SizedIntegerCompositionIterator_init n k i = Ret it ∧
    ∀ fuel : nat, (cnt < fuel)%nat →
      ∃ objs,
        list_of_SizedIntegerCompositionIterator fuel it = Ret (Some objs) ∧
        length objs = cnt ∧
        ∀ j : nat, (j < cnt)%nat →
          ∃ c, objs !! j = Some c ∧
               SizedIntegerComposition_rank c = Ret (i + Z.of_nat j).
Proof.
  intros Hn Hk Hk2 Hi Hcnt.
  assert (∃ st, unrank_sized_integer_composition n k i = Ret st) as [st Hst].
  { destruct (decide (i < comb (Z.to_nat (n - 1)) (Z.to_nat (k - 1)))).
    - destruct (unrank_sized_integer_composition_in_range n k i Hn Hk)
        as (c & Hc & _); [|by eexists].
      rewrite decide_False by done. lia.
    - eexists. apply unrank_sized_integer_composition_out_of_range; lia. }
  exists (mkSizedIntegerCompositionIterator st). split.
  { unfold SizedIntegerCompositionIterator_init. by rewrite Hst. }
  intros fuel Hfuel.
  destruct (decide (i < comb (Z.to_nat (n - 1)) (Z.to_nat (k - 1)))).
  - apply (list_of_SizedIntegerCompositionIterator_from n k Hn Hk Hk2 cnt i);
      (done || lia).
  - assert (cnt = 0%nat) as -> by lia.
    rewrite unrank_sized_integer_composition_out_of_range in Hst by lia.
    simplify_eq. destruct fuel as [|fuel]; [lia|].
    exists []. split; [done|]. split; [done|]. intros j Hj. lia.
Qed.

Lemma X24_witness :
  ∃ it,
    SizedIntegerCompositionIterator_init 5 3 2 = Ret it ∧
    ∀ fuel : nat, (4 < fuel)%nat →
      ∃ objs,
        list_of_SizedIntegerCompositionIterator fuel it = Ret (Some objs) ∧
        length objs = 4%nat ∧
        ∀ j : nat, (j < 4)%nat →
          ∃ c, objs !! j = Some c ∧
               SizedIntegerComposition_rank c = Ret (2 + Z.of_nat j).
Proof. apply (X24_composition_iterator 5 3 2 4); by_computation. Defined.
